(** * Matrix factorisation by gradient descent (Calepins/Projet-Optimisation.ipynb)

    A shallow embedding of the notebook's gradient-descent cell [GD] and of the
    two routines it relies on, [predictedRating] and [computeMSE], together
    with the pieces of numpy and scipy.sparse that [GD] calls
    ([np.random.rand], [sparse.csr_matrix], [nonzero]).

    The notebook is an exercise sheet: the bodies of [predictedRating] and
    [computeMSE] and the two inner statements of the epoch loop of [GD] are
    left as [#### TO DO].  Everything else of [GD] is translated from the
    cell as it is written; the missing pieces are modelled from the
    specification, each in a definition of its own that says so. *)

From Stdlib Require Import String Ascii ZArith List Bool Lia Sorted Permutation Finite.
From Stdlib Require Import QArith Qcanon.
From Stdlib Require PrimFloat Uint63.
Import ListNotations.
Open Scope Z_scope.

(** ** Numbers

    Ratings, factors and errors are Python floats.  The development is
    generic in the carrier: only the operations the code uses are required,
    and no algebraic law is assumed unless a theorem says so. *)

Class Scalar (F : Type) : Type := {
  fzero : F;                 (* 0.0 *)
  fadd : F -> F -> F;
  fsub : F -> F -> F;
  fmul : F -> F -> F;
  fdiv : F -> F -> F;
  fof_Z : Z -> F;            (* float(n) for a Python int n *)
  fnonzero : F -> bool       (* x != 0 *)
}.

(** ** Exceptions and results *)

Inductive exn : Type :=
| ValueError (msg : string)
| IndexError (msg : string)
| EmptyDatasetError
| DimensionMismatchError.

Inductive result (A : Type) : Type :=
| Ok (a : A)
| Raise (e : exn).

Arguments Ok {A} a.
Arguments Raise {A} e.

Definition bind {A B : Type} (c : result A) (k : A -> result B) : result B :=
  match c with
  | Ok a => k a
  | Raise e => Raise e
  end.

Declare Scope result_scope.
Delimit Scope result_scope with result.
Notation "x <- c ;; k" := (bind c (fun x => k))
  (at level 61, c at next level, right associativity) : result_scope.
Notation "' p <- c ;; k" := (bind c (fun p => k))
  (at level 61, p pattern, c at next level, right associativity) : result_scope.
Open Scope result_scope.

(** [mapM f l]: a Python comprehension (or an RDD [map] that is collected)
    whose body may raise; the first exception aborts the traversal. *)
Fixpoint mapM {A B : Type} (f : A -> result B) (l : list A) : result (list B) :=
  match l with
  | [] => Ok []
  | a :: l' => b <- f a ;; bs <- mapM f l' ;; Ok (b :: bs)
  end.

(** [foldM f l s]: a [for] loop over [l] threading the state [s]. *)
Fixpoint foldM {A S : Type} (f : A -> S -> result S) (l : list A) (s : S) : result S :=
  match l with
  | [] => Ok s
  | a :: l' => s' <- f a s ;; foldM f l' s'
  end.

(** ** Vectors and matrices (numpy arrays of floats) *)

Definition vec (F : Type) : Type := list F.
Definition matrix (F : Type) : Type := list (vec F).

Section Arrays.
Context {F : Type} `{Scalar F}.

Definition fsum (l : list F) : F := fold_left fadd l fzero.

Definition vadd (p q : vec F) : vec F := map (fun ab => fadd (fst ab) (snd ab)) (combine p q).
Definition vsub (p q : vec F) : vec F := map (fun ab => fsub (fst ab) (snd ab)) (combine p q).
Definition vscale (c : F) (p : vec F) : vec F := map (fmul c) p.

(** [p.dot(q)] for one-dimensional arrays of the same length. *)
Definition dot (p q : vec F) : F :=
  fsum (map (fun ab => fmul (fst ab) (snd ab)) (combine p q)).

(** numpy's index check along an axis of length [n]: [i] counts from the
    start when [0 <= i < n] and from the end when [-n <= i < 0]; any other
    index raises [IndexError]. *)
Definition np_index (n : nat) (i : Z) : result nat :=
  if (0 <=? i) && (i <? Z.of_nat n) then Ok (Z.to_nat i)
  else if (- Z.of_nat n <=? i) && (i <? 0) then Ok (Z.to_nat (i + Z.of_nat n))
  else Raise (IndexError "index is out of bounds"%string).

(** [A[i,:]] *)
Definition get_row (A : matrix F) (i : Z) : result (vec F) :=
  k <- np_index (length A) i ;; Ok (nth k A []).

Fixpoint replace_nth (n : nat) (r : vec F) (A : matrix F) : matrix F :=
  match A, n with
  | [], _ => []
  | _ :: A', O => r :: A'
  | a :: A', S n' => a :: replace_nth n' r A'
  end.

(** [A[i,:] = r], the in-place row assignment, as the array after it. *)
Definition set_row (A : matrix F) (i : Z) (r : vec F) : result (matrix F) :=
  k <- np_index (length A) i ;; Ok (replace_nth k r A).

(** An [M] by [K] array. *)
Definition has_shape (M K : nat) (A : matrix F) : Prop :=
  length A = M /\ Forall (fun r => length r = K) A.

End Arrays.

(** ** Rating triples and the predictor *)

(** A record of the RDD: the tuple [(UserID, MovieID, Rating)]. *)
Definition rating (F : Type) : Type := (Z * Z * F)%type.

Section Ratings.
Context {F : Type} `{Scalar F}.

Definition user (x : rating F) : Z := fst (fst x).
Definition item (x : rating F) : Z := snd (fst x).
Definition stars (x : rating F) : F := snd x.

(** Modelled from the spec: the predictor of section 4.1, [predict(p, q)],
    the dot product of a user row and an item row of equal length; the
    notebook has no such function of two vectors. *)
Definition predict (p q : vec F) : result F :=
  if Nat.eqb (length p) (length q) then Ok (dot p q)
  else Raise DimensionMismatchError.

(** Modelled from the spec: the body of [predictedRating(x, P, Q)], which
    the notebook leaves as TO DO.  Its signature and docstring are the
    notebook's; the body is the predictor applied to row [x[0]-1] of [P]
    and row [x[1]-1] of [Q] (1-indexed ids, 0-indexed storage). *)
Definition predictedRating (x : rating F) (P Q : matrix F) : result F :=
  p <- get_row P (user x - 1) ;;
  q <- get_row Q (item x - 1) ;;
  predict p q.

(** Modelled from the spec: the squared error [(r - p_i.q_j)^2] of one
    record, the summand of the MSE of section 4.2; the notebook's ALS cell
    maps the same expression over its RDD. *)
Definition squared_error (P Q : matrix F) (x : rating F) : result F :=
  pr <- predictedRating x P Q ;;
  Ok (let e := fsub (stars x) pr in fmul e e).

(** [rdd.mean()]: the sum of the values over their count. *)
Definition mean (l : list F) : F := fdiv (fsum l) (fof_Z (Z.of_nat (length l))).

(** Modelled from the spec: the body of [computeMSE(rdd, P, Q)], which the
    notebook leaves as TO DO.  The squared errors of the records of the
    RDD are averaged, the way the notebook's ALS cell computes its MSE
    ([map] of the squared difference, then [mean]); an RDD without records
    raises [EmptyDatasetError] (sections 7 and 8). *)
Definition computeMSE (rdd : list (rating F)) (P Q : matrix F) : result F :=
  match rdd with
  | [] => Raise EmptyDatasetError
  | _ :: _ => errs <- mapM (squared_error P Q) rdd ;; Ok (mean errs)
  end.

End Ratings.

(** ** scipy.sparse: the matrix built by [csr_matrix((data, (row, col)))]

    The CSR matrix is kept in the form [tocoo()] gives back: the stored
    positions in row-major order (rows ascending, columns ascending inside
    a row), one entry per position.  Building it from coordinate lists sorts
    the triples by position and adds up the values that share a position
    ([sum_duplicates]); a value that is zero stays stored. *)

Record csr (F : Type) : Type := { shape : Z * Z; entries : list (Z * Z * F) }.

Arguments shape {F} _.
Arguments entries {F} _.

Section Sparse.
Context {F : Type} `{Scalar F}.

(** Row-major order on positions. *)
Definition pos_compare (a b : Z * Z) : comparison :=
  match fst a ?= fst b with
  | Eq => snd a ?= snd b
  | c => c
  end.

(** One triple merged into a sorted run: a new position is inserted at its
    place, a position already stored gets the value added to it
    ([x += Ax[jj]] in [csr_sum_duplicates]). *)
Fixpoint coo_insert (ij : Z * Z) (v : F) (es : list (Z * Z * F)) : list (Z * Z * F) :=
  match es with
  | [] => [(ij, v)]
  | (ij', v') :: es' =>
      match pos_compare ij ij' with
      | Lt => (ij, v) :: es
      | Eq => (ij', fadd v' v) :: es'
      | Gt => (ij', v') :: coo_insert ij v es'
      end
  end.

Definition sum_duplicates (coo : list (Z * Z * F)) : list (Z * Z * F) :=
  fold_left (fun es e => coo_insert (fst e) (snd e) es) coo [].

(** [np.max] of an index array; there is none for an empty array. *)
Definition np_max (l : list Z) : option Z :=
  match l with
  | [] => None
  | a :: l' => Some (fold_left Z.max l' a)
  end.

(** [sparse.csr_matrix((data, (row, col)))], no [shape] given: the shape is
    inferred as the largest index plus one in each direction, which needs
    a non-empty index array, and a negative index is refused. *)
Definition csr_matrix (data : list F) (row col : list Z) : result (csr F) :=
  match np_max row, np_max col with
  | Some mr, Some mc =>
      let M := mr + 1 in
      let N := mc + 1 in
      if (M <? 0) || (N <? 0) then
        Raise (ValueError "'shape' elements cannot be negative"%string)
      else if existsb (fun i => i <? 0) row then
        Raise (ValueError "negative row index found"%string)
      else if existsb (fun j => j <? 0) col then
        Raise (ValueError "negative column index found"%string)
      else Ok {| shape := (M, N);
                 entries := sum_duplicates (combine (combine row col) data) |}
  | _, _ =>
      Raise (ValueError "cannot infer dimensions from zero sized index arrays"%string)
  end.

(** [R.nonzero()]: the row and column index arrays of the stored entries
    whose value is not zero ([A.data != 0] on the COO form). *)
Definition nonzero (R : csr F) : list Z * list Z :=
  let nz := filter (fun e => fnonzero (snd e)) (entries R) in
  (map (fun e => fst (fst e)) nz, map (fun e => snd (fst e)) nz).

Definition pos_eqb (a b : Z * Z) : bool := (fst a =? fst b) && (snd a =? snd b).

(** The value stored at a position, if the position is stored. *)
Definition stored (es : list (Z * Z * F)) (ij : Z * Z) : option F :=
  match find (fun e => pos_eqb (fst e) ij) es with
  | Some e => Some (snd e)
  | None => None
  end.

(** [R[i,j]] at a position inside the matrix, [0 <= i < M] and
    [0 <= j < N]: the stored value, [0.0] where nothing is stored.  (Out of
    these bounds scipy counts a negative index from the end and raises an
    [IndexError] otherwise; no use below leaves the bounds.) *)
Definition csr_get (R : csr F) (i j : Z) : F :=
  match stored (entries R) (i, j) with
  | Some v => v
  | None => fzero
  end.

End Sparse.

(** ** numpy's global generator and the trainer

    [np.random.rand] draws from numpy's global generator, the only state
    [GD] shares with the rest of the session.  The generator is a state
    [G] with one operation, the next sample of [[0, 1)]; [rand A] is a
    computation that may advance it and may raise. *)

Section Trainer.
Context {F : Type} `{Scalar F}.
Context {G : Type} (random_sample : G -> F * G).

Definition rand (A : Type) : Type := G -> result A * G.

Definition rand_bind {A B : Type} (c : rand A) (k : A -> rand B) : rand B :=
  fun g =>
    match c g with
    | (Ok a, g') => k a g'
    | (Raise e, g') => (Raise e, g')
    end.

(** A computation that leaves the generator alone. *)
Definition rand_lift {A : Type} (c : result A) : rand A := fun g => (c, g).

Notation "x <~ c ;; k" := (rand_bind c (fun x => k))
  (at level 61, c at next level, right associativity).

(** One row, then [m] rows, of fresh samples (C order: row after row). *)
Fixpoint draw_row (n : nat) (g : G) : vec F * G :=
  match n with
  | O => ([], g)
  | S n' =>
      let (x, g1) := random_sample g in
      let (r, g2) := draw_row n' g1 in
      (x :: r, g2)
  end.

Fixpoint draw_rows (m n : nat) (g : G) : matrix F * G :=
  match m with
  | O => ([], g)
  | S m' =>
      let (r, g1) := draw_row n g in
      let (A, g2) := draw_rows m' n g1 in
      (r :: A, g2)
  end.

(** [np.random.rand(d0, d1)]: a negative dimension is refused before
    anything is drawn. *)
Definition np_random_rand (d0 d1 : Z) : rand (matrix F) :=
  fun g =>
    if (d0 <? 0) || (d1 <? 0) then
      (Raise (ValueError "negative dimensions are not allowed"%string), g)
    else
      let (A, g') := draw_rows (Z.to_nat d0) (Z.to_nat d1) g in
      (Ok A, g').

(** [range(n)] *)
Definition range (n : Z) : list Z := map Z.of_nat (seq 0 (Z.to_nat n)).

(** Modelled from the spec: the first TO DO of the epoch loop, the update
    of [P[i,:]] and [Q[j,:]] for one visited position (section 4.3).  The
    error and both new rows are computed from the rows as they are when
    the step starts; then the two rows are assigned. *)
Definition sgd_step (R : csr F) (GAMMA LAMBDA : F) (ij : Z * Z)
    (PQ : matrix F * matrix F) : result (matrix F * matrix F) :=
  let (i, j) := ij in
  let (P, Q) := PQ in
  p_old <- get_row P i ;;
  q_old <- get_row Q j ;;
  pr <- predict p_old q_old ;;
  let e := fsub (csr_get R i j) pr in
  let two := fof_Z 2 in
  let p_new :=
    vadd p_old (vscale GAMMA (vsub (vscale (fmul two e) q_old)
                                   (vscale (fmul two LAMBDA) p_old))) in
  let q_new :=
    vadd q_old (vscale GAMMA (vsub (vscale (fmul two e) p_old)
                                   (vscale (fmul two LAMBDA) q_old))) in
  P' <- set_row P i p_new ;;
  Q' <- set_row Q j q_new ;;
  Ok (P', Q').

(** The inner loop, [for i,j in zip(I,J)]. *)
Definition epoch_pass (R : csr F) (GAMMA LAMBDA : F) (IJ : list (Z * Z))
    (PQ : matrix F * matrix F) : result (matrix F * matrix F) :=
  foldM (sgd_step R GAMMA LAMBDA) IJ PQ.

(** Modelled from the spec: the second TO DO of the epoch loop, which the
    cell describes as computing the current MSE and saving it in [mse].
    The record is [[epoch+1, mse_tmp]], continuing the numbering the cell
    starts with [[0, mse_tmp]]. *)
Definition record_mse (trainRDD : list (rating F)) (epoch : Z) (P Q : matrix F)
    (mse : list (Z * F)) : result (list (Z * F)) :=
  mse_tmp <- computeMSE trainRDD P Q ;;
  Ok (mse ++ [(epoch + 1, mse_tmp)]).

(** The body of [for epoch in range(MAXITER)]: the pass over [zip(I,J)],
    then the record. *)
Definition epoch_body (trainRDD : list (rating F)) (R : csr F) (GAMMA LAMBDA : F)
    (IJ : list (Z * Z)) (epoch : Z) (st : matrix F * matrix F * list (Z * F))
    : result (matrix F * matrix F * list (Z * F)) :=
  let '(P, Q, mse) := st in
  PQ' <- epoch_pass R GAMMA LAMBDA IJ (P, Q) ;;
  mse' <- record_mse trainRDD epoch (fst PQ') (snd PQ') mse ;;
  Ok (fst PQ', snd PQ', mse').

(** [GD(trainRDD, K, MAXITER, GAMMA, LAMBDA)], returning [P, Q, mse].
    [trainRDD] stands for [trainRDD.collect()], the records in the order
    the RDD yields them.  The [print] of the first record and the unused
    [nbNonZero] are left out. *)
Definition GD (trainRDD : list (rating F)) (K MAXITER : Z) (GAMMA LAMBDA : F)
    : rand (matrix F * matrix F * list (Z * F)) :=
  let row := map (fun part => user part - 1) trainRDD in
  let col := map (fun part => item part - 1) trainRDD in
  let data := map (fun part => stars part) trainRDD in
  R <~ rand_lift (csr_matrix data row col) ;;
  let M := fst (shape R) in
  let N := snd (shape R) in
  P <~ np_random_rand M K ;;
  Q <~ np_random_rand N K ;;
  rand_lift (
    mse_tmp <- computeMSE trainRDD P Q ;;
    let mse := [(0, mse_tmp)] in
    let nonzero := nonzero R in
    let I := fst nonzero in
    let J := snd nonzero in
    foldM (epoch_body trainRDD R GAMMA LAMBDA (combine I J))
          (range MAXITER) (P, Q, mse)).

End Trainer.

(** ** What the routines are compared with

    The formulas of sections 4.1 to 4.3 in the spec's own words
    ([dot_product], [MSE_formula], [updated_row]), written over total
    lookups, and the vocabulary the statements about the sparse matrix and
    the epoch loop use. *)

Section Formulas.
Context {F : Type} `{Scalar F}.

(** [f 0 + f 1 + ... + f (n-1)], added up from [0.0] in that order: the
    sums of the spec's formulas, written with the additions alone. *)
Fixpoint sigma (n : nat) (f : nat -> F) : F :=
  match n with
  | O => fzero
  | S n' => fadd (sigma n' f) (f n')
  end.

(** In the spec's words: [p . q], the sum over [t < k] of [p_t * q_t]. *)
Definition dot_product (k : nat) (p q : vec F) : F :=
  sigma k (fun t => fmul (nth t p fzero) (nth t q fzero)).

(** Row of the factor matrix [A] for the 1-indexed id [id]. *)
Definition factor_row (A : matrix F) (id : Z) : vec F := nth (Z.to_nat (id - 1)) A [].



(** The ratings a collection holds for one position, in collection order,
    and their sum taken from the first one on. *)
Definition ratings_at (coo : list (Z * Z * F)) (ij : Z * Z) : list F :=
  map snd (filter (fun e => pos_eqb (fst e) ij) coo).

Definition sum_run (l : list F) : option F :=
  match l with
  | [] => None
  | v :: l' => Some (fold_left fadd l' v)
  end.

(** The coordinate triples [GD] hands to [csr_matrix]. *)
Definition coo_of (D : list (rating F)) : list (Z * Z * F) :=
  map (fun part => ((user part - 1, item part - 1), stars part)) D.

(** Row-major order, strictly: no position twice. *)
Definition pos_lt (a b : Z * Z) : Prop := pos_compare a b = Lt.

Definition row_major (es : list (Z * Z * F)) : Prop :=
  StronglySorted pos_lt (map fst es).

(** The positions one epoch visits: [zip(I, J)] for [I, J = R.nonzero()]. *)
Definition visits (R : csr F) : list (Z * Z) :=
  combine (fst (nonzero R)) (snd (nonzero R)).

(** In the spec's words: [own + gamma * (2 * e * other - 2 * lambda * own)],
    the new row of section 4.3 for the row [own] and the row [other] of the
    other factor. *)
Definition updated_row (GAMMA LAMBDA e : F) (own other : vec F) : vec F :=
  vadd own (vscale GAMMA (vsub (vscale (fmul (fof_Z 2) e) other)
                               (vscale (fmul (fof_Z 2) LAMBDA) own))).

(** The records a dataset holds for one (user, item) pair. *)
Definition records_of (D : list (rating F)) (u v : Z) : list (rating F) :=
  filter (fun y => (user y =? u) && (item y =? v)) D.

(** The factors after [n] epochs started from [PQ]: each epoch is one pass
    of the update over the visited positions, in their order. *)
Fixpoint after_epochs (R : csr F) (GAMMA LAMBDA : F) (n : nat)
    (PQ : matrix F * matrix F) : result (matrix F * matrix F) :=
  match n with
  | O => Ok PQ
  | S n' =>
      PQ' <- after_epochs R GAMMA LAMBDA n' PQ ;;
      epoch_pass R GAMMA LAMBDA (visits R) PQ'
  end.

(** The loss record of epoch [t]: the MSE, over the training set, of the
    factors after [t] epochs. *)
Definition loss_at (D : list (rating F)) (R : csr F) (GAMMA LAMBDA : F)
    (PQ0 : matrix F * matrix F) (t : nat) : result (Z * F) :=
  PQ <- after_epochs R GAMMA LAMBDA t PQ0 ;;
  m <- computeMSE D (fst PQ) (snd PQ) ;;
  Ok (Z.of_nat t, m).

(** A position lies inside an [M] by [N] matrix. *)
Definition inside (M N : nat) (ij : Z * Z) : Prop :=
  0 <= fst ij < Z.of_nat M /\ 0 <= snd ij < Z.of_nat N.

(** The ids of a dataset have a row in [P] and in [Q]. *)
Definition ids_in_range (D : list (rating F)) (P Q : matrix F) : Prop :=
  Forall (fun x => 1 <= user x <= Z.of_nat (length P) /\
                   1 <= item x <= Z.of_nat (length Q)) D.

End Formulas.

Section Samples.
Context {F : Type} {G : Type} (random_sample : G -> F * G).

(** The generator state after [n] samples, and the [n] samples drawn. *)
Fixpoint advance (n : nat) (g : G) : G :=
  match n with
  | O => g
  | S n' => advance n' (snd (random_sample g))
  end.

Fixpoint samples (n : nat) (g : G) : list F :=
  match n with
  | O => []
  | S n' => fst (random_sample g) :: samples n' (snd (random_sample g))
  end.

(** [p] cut into rows of [n] values. *)
Fixpoint rows_of (m n : nat) (p : list F) : list (list F) :=
  match m with
  | O => []
  | S m' => firstn n p :: rows_of m' n (skipn n p)
  end.

(** The factors [GD] starts from when the matrix is [M] by [N] and the
    generator is in state [g]: [P] takes the next [M * K] samples, [Q] the
    [N * K] after them. *)
Definition initial_P (M K : Z) (g : G) : matrix F :=
  rows_of (Z.to_nat M) (Z.to_nat K) (samples (Z.to_nat M * Z.to_nat K) g).

Definition initial_Q (M N K : Z) (g : G) : matrix F :=
  rows_of (Z.to_nat N) (Z.to_nat K)
          (samples (Z.to_nat N * Z.to_nat K) (advance (Z.to_nat M * Z.to_nat K) g)).

Definition generator_after (M N K : Z) (g : G) : G :=
  advance (Z.to_nat N * Z.to_nat K) (advance (Z.to_nat M * Z.to_nat K) g).

End Samples.

(** ** Calls on the objects of the session

    numpy arrays and the RDD are handed to a function by reference, so a
    call can change them.  [memory] holds the three objects a call of the
    predictor can reach, and a call is a function from the memory before it
    to its outcome and the memory after it. *)

Record memory (F : Type) : Type :=
  { mem_P : matrix F; mem_Q : matrix F; mem_D : list (rating F) }.

Arguments mem_P {F} _.
Arguments mem_Q {F} _.
Arguments mem_D {F} _.

Section Calls.
Context {F : Type} `{Scalar F}.

(** Modelled from the spec: the call [predictedRating(x, P, Q)] on the
    arrays in memory (section 4.1: the dot product of the two rows, no side
    effects); the body is a TO DO in the notebook.  The two rows are read
    and nothing is written. *)
Definition predictedRating_call (x : rating F) (m : memory F) : result F * memory F :=
  (p <- get_row (mem_P m) (user x - 1) ;;
   q <- get_row (mem_Q m) (item x - 1) ;;
   predict p q,
   m).

End Calls.

(** ** Loading the ratings and the statistics cell

    The cell that reads [ratings.dat]: [parseRating], applied to every line,
    and the numbers the cell computes from [ratingsRDD] before it prints
    them.  An RDD is the list of its records. *)

Section Loading.
Context {F : Type} `{Scalar F}.

(** Python's conversions [int(s)] and [float(s)] of a field, as the
    language defines them: a value, or the exception they raise. *)
Context (py_int : string -> result Z) (py_float : string -> result F).

(** [s.split(sep)] scans [s] from the left: where [sep] starts, the field
    read so far ends and [sep] is stepped over ([skip] counts the characters
    of it still to pass); a string with no [sep] in it is one field. *)
Fixpoint split_fields (sep : string) (skip : nat) (s : string) : list string :=
  match s with
  | EmptyString => [EmptyString]
  | String c s' =>
      match skip with
      | S k => split_fields sep k s'
      | O =>
          if prefix sep s then
            EmptyString :: split_fields sep (String.length sep - 1) s'
          else
            match split_fields sep 0 s' with
            | f :: fs => String c f :: fs
            | [] => [String c EmptyString]
            end
      end
  end.

(** [s.split(sep)]; an empty separator is refused. *)
Definition str_split (sep s : string) : result (list string) :=
  match sep with
  | EmptyString => Raise (ValueError "empty separator"%string)
  | String _ _ => Ok (split_fields sep 0 s)
  end.

(** [fields[n]] for an index written as a literal [n >= 0]. *)
Definition list_get (fields : list string) (n : nat) : result string :=
  match nth_error fields n with
  | Some f => Ok f
  | None => Raise (IndexError "list index out of range"%string)
  end.

(** [parseRating(line)]: the tuple is built from left to right. *)
Definition parseRating (line : string) : result (rating F) :=
  fields <- str_split "::" line ;;
  f0 <- list_get fields 0 ;;
  userID <- py_int f0 ;;
  f1 <- list_get fields 1 ;;
  movieID <- py_int f1 ;;
  f2 <- list_get fields 2 ;;
  r <- py_float f2 ;;
  Ok ((userID, movieID), r).

(** The character [c] occurs in [s]. *)
Fixpoint occurs (c : Ascii.ascii) (s : string) : bool :=
  match s with
  | EmptyString => false
  | String c' s' => if Ascii.ascii_dec c c' then true else occurs c s'
  end.

(** [rdd.count()], [rdd.distinct()] (its records once each) and
    [rdd.max()], which reduces and so refuses an RDD without records. *)
Definition rdd_count {A : Type} (rdd : list A) : Z := Z.of_nat (length rdd).

Definition rdd_distinct (rdd : list Z) : list Z := nodup Z.eq_dec rdd.

Definition rdd_max (rdd : list Z) : result Z :=
  match np_max rdd with
  | Some m => Ok m
  | None => Raise (ValueError "Can not reduce() empty RDD"%string)
  end.

(** The statistics cell, assignment by assignment; [dim_M] and [dim_N] are
    its [M] and [N], the dimensions of the rating matrix.  The last
    assignment, [matrixSparsity = float(numRatings)/float(M*N)], is a float
    quotient of two of these numbers and has no definition of its own; the
    two [print] calls are left out. *)
Definition numRatings (ratingsRDD : list (rating F)) : Z := rdd_count ratingsRDD.

Definition numUsers (ratingsRDD : list (rating F)) : Z :=
  rdd_count (rdd_distinct (map (fun r => user r) ratingsRDD)).

Definition numMovies (ratingsRDD : list (rating F)) : Z :=
  rdd_count (rdd_distinct (map (fun r => item r) ratingsRDD)).

Definition dim_M (ratingsRDD : list (rating F)) : result Z :=
  rdd_max (map (fun r => user r) ratingsRDD).

Definition dim_N (ratingsRDD : list (rating F)) : result Z :=
  rdd_max (map (fun r => item r) ratingsRDD).

(** [nbNonZero = R.nonzero()[0].size] in [GD]. *)
Definition nbNonZero (R : csr F) : Z := Z.of_nat (length (fst (nonzero R))).

(** No (user, item) pair is rated twice. *)
Definition pairs_unique (D : list (rating F)) : Prop :=
  NoDup (map (fun x => (user x, item x)) D).

End Loading.

(** ** Exact arithmetic

    Rational numbers as the carrier: the arithmetic in which the formulas of
    the problem statement are written, and in which runs can be computed. *)

Module Exact.

#[export] Instance Qc_Scalar : Scalar Qc := {|
  fzero := 0%Qc;
  fadd := Qcplus;
  fsub := Qcminus;
  fmul := Qcmult;
  fdiv := Qcdiv;
  fof_Z := fun z => Q2Qc (inject_Z z);
  fnonzero := fun x => negb (Qc_eq_bool x 0%Qc)
|}.

(** A small congruential generator standing for numpy's: the state is an
    integer, the sample is its residue modulo 16 over 16. *)
Definition lcg (g : Z) : Qc * Z := (Q2Qc (Qmake (g mod 16) 16), (5 * g + 3) mod 16).

End Exact.

(** ** Binary64 arithmetic

    IEEE 754 doubles, the floats Python computes with, as the kernel's
    primitive floats. *)

Module Binary64.

(** [float(n)] for an integer below [2^63] in absolute value. *)
Definition float_of_Z (z : Z) : PrimFloat.float :=
  if z <? 0 then PrimFloat.opp (PrimFloat.of_uint63 (Uint63.of_Z (- z)))
  else PrimFloat.of_uint63 (Uint63.of_Z z).

#[export] Instance float_Scalar : Scalar PrimFloat.float := {|
  fzero := PrimFloat.zero;
  fadd := PrimFloat.add;
  fsub := PrimFloat.sub;
  fmul := PrimFloat.mul;
  fdiv := PrimFloat.div;
  fof_Z := float_of_Z;
  fnonzero := fun x => negb (PrimFloat.eqb x PrimFloat.zero)
|}.

End Binary64.

(** * Properties *)

(** ** Arrays *)

Section ArrayFacts.
Context {F : Type} `{Scalar F}.

Lemma np_index_in_range (n : nat) (i : Z) :
  0 <= i < Z.of_nat n -> np_index n i = Ok (Z.to_nat i).
Proof.
  intros Hi. unfold np_index.
  replace ((0 <=? i) && (i <? Z.of_nat n)) with true
    by (symmetry; apply andb_true_iff; split; [apply Z.leb_le | apply Z.ltb_lt]; lia).
  reflexivity.
Qed.

Lemma get_row_in_range (A : matrix F) (i : Z) :
  0 <= i < Z.of_nat (length A) -> get_row A i = Ok (nth (Z.to_nat i) A []).
Proof.
  intros Hi. unfold get_row. rewrite np_index_in_range by exact Hi. reflexivity.
Qed.

Lemma set_row_in_range (A : matrix F) (i : Z) (r : vec F) :
  0 <= i < Z.of_nat (length A) -> set_row A i r = Ok (replace_nth (Z.to_nat i) r A).
Proof.
  intros Hi. unfold set_row. rewrite np_index_in_range by exact Hi. reflexivity.
Qed.

Lemma length_replace_nth (n : nat) (r : vec F) (A : matrix F) :
  length (replace_nth n r A) = length A.
Proof.
  revert n. induction A as [|a A IH]; intros [|n]; simpl; auto.
Qed.

Lemma nth_error_replace_nth_same (n : nat) (r : vec F) (A : matrix F) :
  (n < length A)%nat -> nth_error (replace_nth n r A) n = Some r.
Proof.
  revert n. induction A as [|a A IH]; intros [|n] Hn; simpl in *; try lia; auto.
  apply IH. lia.
Qed.

Lemma nth_error_replace_nth_other (n m : nat) (r : vec F) (A : matrix F) :
  m <> n -> nth_error (replace_nth n r A) m = nth_error A m.
Proof.
  revert n m. induction A as [|a A IH]; intros [|n] [|m] Hm; simpl; auto;
    try congruence.
Qed.

Lemma Forall_replace_nth (Pr : vec F -> Prop) (n : nat) (r : vec F) (A : matrix F) :
  Pr r -> Forall Pr A -> Forall Pr (replace_nth n r A).
Proof.
  intros Hr. revert n. induction A as [|a A IH]; intros [|n] HA; simpl; auto;
    inversion HA; subst; constructor; auto.
Qed.

Lemma has_shape_replace_nth (M K n : nat) (r : vec F) (A : matrix F) :
  length r = K -> has_shape M K A -> has_shape M K (replace_nth n r A).
Proof.
  intros Hr [HM HK]. split.
  - rewrite length_replace_nth. exact HM.
  - apply Forall_replace_nth; assumption.
Qed.

Lemma has_shape_row (M K : nat) (A : matrix F) (n : nat) :
  has_shape M K A -> (n < M)%nat -> length (nth n A []) = K.
Proof.
  intros [HM HK] Hn. rewrite Forall_forall in HK. apply HK.
  apply nth_In. lia.
Qed.

Lemma length_vadd (p q : vec F) : length p = length q -> length (vadd p q) = length p.
Proof.
  intros E. unfold vadd. rewrite length_map, length_combine. lia.
Qed.

Lemma length_vsub (p q : vec F) : length p = length q -> length (vsub p q) = length p.
Proof.
  intros E. unfold vsub. rewrite length_map, length_combine. lia.
Qed.

Lemma length_vscale (c : F) (p : vec F) : length (vscale c p) = length p.
Proof. unfold vscale. apply length_map. Qed.

End ArrayFacts.

(** ** Predictor and evaluator *)

Section EvaluatorFacts.
Context {F : Type} `{Scalar F}.

Lemma products_by_index (k : nat) (p q : vec F) :
  length p = k -> length q = k ->
  map (fun ab => fmul (fst ab) (snd ab)) (combine p q) =
  map (fun t => fmul (nth t p fzero) (nth t q fzero)) (seq 0 k).
Proof.
  revert k q. induction p as [|a p IH]; intros k q Hp Hq; simpl in Hp; subst k.
  - reflexivity.
  - destruct q as [|b q]; simpl in Hq; [discriminate|].
    injection Hq as Hq. simpl. f_equal.
    rewrite <- seq_shift, map_map. simpl.
    apply IH; auto.
Qed.


Lemma fsum_snoc (l : list F) (x : F) : fsum (l ++ [x]) = fadd (fsum l) x.
Proof. unfold fsum. rewrite fold_left_app. reflexivity. Qed.

(** The sum Python accumulates over a list is the sum of the formulas. *)
Lemma fsum_seq (k : nat) (f : nat -> F) : fsum (map f (seq 0 k)) = sigma k f.
Proof.
  induction k as [|k IH]; [reflexivity|].
  rewrite seq_S, map_app. change (map f [(0 + k)%nat]) with [f k].
  rewrite fsum_snoc, IH. reflexivity.
Qed.


Lemma dot_by_index (k : nat) (p q : vec F) :
  length p = k -> length q = k -> dot p q = dot_product k p q.
Proof.
  intros Hp Hq. unfold dot, dot_product.
  rewrite (products_by_index k p q Hp Hq). apply fsum_seq.
Qed.

Lemma predict_same_length (p q : vec F) :
  length p = length q -> predict p q = Ok (dot p q).
Proof.
  intros E. unfold predict. rewrite E, Nat.eqb_refl. reflexivity.
Qed.

(** C7: for vectors [p] and [q] of the same length [k], [predict] returns
    their dot product [p_0 * q_0 + ... + p_(k-1) * q_(k-1)]; and a call of
    the predictor on the arrays in memory leaves [P], [Q] and the dataset as
    they were, whether it returns or raises: it returns what
    [predictedRating] computes from [P] and [Q], the dot product of the two
    rows it reads. *)
Theorem predict_dot_product (k : nat) (p q : vec F) (x : rating F) (m : memory F) :
  length p = k -> length q = k ->
  predict p q = Ok (dot_product k p q) /\
  snd (predictedRating_call x m) = m /\
  fst (predictedRating_call x m) = predictedRating x (mem_P m) (mem_Q m) /\
  (get_row (mem_P m) (user x - 1) = Ok p ->
   get_row (mem_Q m) (item x - 1) = Ok q ->
   predictedRating_call x m = (Ok (dot_product k p q), m)).
Proof.
  intros Hp Hq.
  assert (E : predict p q = Ok (dot_product k p q)).
  { rewrite predict_same_length by congruence.
    f_equal. apply dot_by_index; assumption. }
  split; [exact E|]. split; [reflexivity|]. split; [reflexivity|].
  intros Ep Eq. unfold predictedRating_call. rewrite Ep, Eq. simpl.
  rewrite E. reflexivity.
Qed.

Lemma predictedRating_in_range (k : nat) (x : rating F) (P Q : matrix F) :
  Forall (fun r => length r = k) P -> Forall (fun r => length r = k) Q ->
  1 <= user x <= Z.of_nat (length P) -> 1 <= item x <= Z.of_nat (length Q) ->
  predictedRating x P Q =
  Ok (dot_product k (factor_row P (user x)) (factor_row Q (item x))).
Proof.
  intros HP HQ Hu Hi. unfold predictedRating, factor_row.
  rewrite (get_row_in_range P (user x - 1)) by lia.
  rewrite (get_row_in_range Q (item x - 1)) by lia.
  simpl.
  assert (Lp : length (nth (Z.to_nat (user x - 1)) P []) = k)
    by (rewrite Forall_forall in HP; apply HP, nth_In; lia).
  assert (Lq : length (nth (Z.to_nat (item x - 1)) Q []) = k)
    by (rewrite Forall_forall in HQ; apply HQ, nth_In; lia).
  rewrite predict_same_length by congruence.
  f_equal. apply dot_by_index; assumption.
Qed.

Lemma squared_errors_in_range (k : nat) (D : list (rating F)) (P Q : matrix F) :
  Forall (fun r => length r = k) P -> Forall (fun r => length r = k) Q ->
  ids_in_range D P Q ->
  mapM (squared_error P Q) D =
  Ok (map (fun x =>
             let e := fsub (stars x)
                           (dot_product k (factor_row P (user x))
                                          (factor_row Q (item x))) in
             fmul e e) D).
Proof.
  intros HP HQ HD. induction HD as [|x D [Hu Hi] HD IH]; simpl.
  - reflexivity.
  - unfold squared_error at 1.
    rewrite (predictedRating_in_range k x P Q HP HQ Hu Hi). simpl.
    rewrite IH. reflexivity.
Qed.

(** The evaluator returns a number on every non-empty dataset whose ids have
    rows in factor matrices of one rank. *)
Lemma computeMSE_in_range (k : nat) (D : list (rating F)) (P Q : matrix F) :
  D <> [] ->
  Forall (fun r => length r = k) P -> Forall (fun r => length r = k) Q ->
  ids_in_range D P Q ->
  computeMSE D P Q =
  Ok (mean (map (fun x =>
                   let e := fsub (stars x)
                                 (dot_product k (factor_row P (user x))
                                                (factor_row Q (item x))) in
                   fmul e e) D)).
Proof.
  intros HD HP HQ Hids. unfold computeMSE.
  destruct D as [|x D]; [congruence|].
  rewrite (squared_errors_in_range k _ P Q HP HQ Hids). reflexivity.
Qed.


End EvaluatorFacts.

(** ** The sparse matrix *)

Section SparseFacts.
Context {F : Type} `{Scalar F}.

Lemma pos_compare_eq (a b : Z * Z) : pos_compare a b = Eq <-> a = b.
Proof.
  destruct a as [a1 a2], b as [b1 b2]. unfold pos_compare. simpl.
  destruct (Z.compare_spec a1 b1) as [E|L|L].
  - rewrite Z.compare_eq_iff. subst. split; [intros ->; reflexivity | congruence].
  - split; [discriminate | intros E; inversion E; lia].
  - split; [discriminate | intros E; inversion E; lia].
Qed.

Lemma pos_lt_spec (a b : Z * Z) :
  pos_lt a b <-> fst a < fst b \/ (fst a = fst b /\ snd a < snd b).
Proof.
  destruct a as [a1 a2], b as [b1 b2]. unfold pos_lt, pos_compare. simpl.
  destruct (Z.compare_spec a1 b1) as [E|L|L].
  - rewrite Z.compare_lt_iff. lia.
  - split; [lia | reflexivity].
  - split; [discriminate | lia].
Qed.

Lemma pos_compare_gt (a b : Z * Z) : pos_compare a b = Gt -> pos_lt b a.
Proof.
  destruct a as [a1 a2], b as [b1 b2]. intros E. apply pos_lt_spec. revert E.
  unfold pos_compare. simpl.
  destruct (Z.compare_spec a1 b1) as [E|L|L]; try discriminate; try lia.
  rewrite Z.compare_gt_iff. lia.
Qed.

Lemma pos_lt_trans (a b c : Z * Z) : pos_lt a b -> pos_lt b c -> pos_lt a c.
Proof. rewrite !pos_lt_spec. lia. Qed.

Lemma pos_lt_neq (a b : Z * Z) : pos_lt a b -> a <> b.
Proof. rewrite pos_lt_spec. intros L ->. lia. Qed.

Lemma pos_eqb_eq (a b : Z * Z) : pos_eqb a b = true <-> a = b.
Proof.
  destruct a as [a1 a2], b as [b1 b2]. unfold pos_eqb. simpl.
  rewrite andb_true_iff, !Z.eqb_eq. split; [intros [-> ->]; reflexivity | intros E; inversion E; auto].
Qed.

Lemma pos_eqb_refl (a : Z * Z) : pos_eqb a a = true.
Proof. apply pos_eqb_eq. reflexivity. Qed.

Lemma pos_eqb_neq (a b : Z * Z) : a <> b -> pos_eqb a b = false.
Proof.
  intros N. destruct (pos_eqb a b) eqn:E; [|reflexivity].
  apply pos_eqb_eq in E. contradiction.
Qed.

(** The positions of a run after one more triple is merged into it. *)
Lemma coo_insert_positions (ij : Z * Z) (v : F) (es : list (Z * Z * F)) (k : Z * Z) :
  In k (map fst (coo_insert ij v es)) <-> k = ij \/ In k (map fst es).
Proof.
  induction es as [|[ij' v'] es IH]; simpl.
  - intuition congruence.
  - destruct (pos_compare ij ij') eqn:C; simpl.
    + apply pos_compare_eq in C. subst. intuition congruence.
    + intuition congruence.
    + rewrite IH. intuition congruence.
Qed.

Lemma coo_insert_row_major (ij : Z * Z) (v : F) (es : list (Z * Z * F)) :
  row_major es -> row_major (coo_insert ij v es).
Proof.
  unfold row_major. induction es as [|[ij' v'] es IH]; simpl; intros S.
  - repeat constructor.
  - inversion S as [|? ? S' Hall]; subst.
    destruct (pos_compare ij ij') eqn:C; simpl.
    + constructor; assumption.
    + constructor; [assumption|]. constructor; [exact C|].
      rewrite Forall_forall in *. intros k Hk.
      apply (pos_lt_trans ij ij' k C). apply Hall, Hk.
    + constructor; [apply IH, S'|].
      rewrite Forall_forall in *. intros k Hk.
      apply coo_insert_positions in Hk. destruct Hk as [->|Hk].
      * apply pos_compare_gt, C.
      * apply Hall, Hk.
Qed.

Lemma stored_above (ij : Z * Z) (es : list (Z * Z * F)) :
  Forall (pos_lt ij) (map fst es) -> stored es ij = None.
Proof.
  unfold stored. induction es as [|[ij' v'] es IH]; simpl; intros A.
  - reflexivity.
  - inversion A as [|? ? L A']; subst.
    rewrite (pos_eqb_neq ij' ij); [apply IH, A'|].
    intros ->. exact (pos_lt_neq _ _ L eq_refl).
Qed.

Lemma stored_cons (e : Z * Z * F) (es : list (Z * Z * F)) (k : Z * Z) :
  stored (e :: es) k = if pos_eqb (fst e) k then Some (snd e) else stored es k.
Proof. unfold stored. simpl. destruct (pos_eqb (fst e) k); reflexivity. Qed.

(** Merging a triple changes the value at its own position only: the value
    is added to what is stored there, or stored as it is. *)
Lemma stored_coo_insert (ij : Z * Z) (v : F) (es : list (Z * Z * F)) (k : Z * Z) :
  row_major es ->
  stored (coo_insert ij v es) k =
  if pos_eqb ij k
  then Some (match stored es ij with Some w => fadd w v | None => v end)
  else stored es k.
Proof.
  unfold row_major. induction es as [|[ij' v'] es IH]; simpl; intros S.
  - rewrite stored_cons. simpl. reflexivity.
  - inversion S as [|? ? S' Hall]; subst.
    destruct (pos_compare ij ij') eqn:C.
    + apply pos_compare_eq in C. subst ij'.
      rewrite !stored_cons. simpl. rewrite pos_eqb_refl.
      destruct (pos_eqb ij k); reflexivity.
    + rewrite (stored_cons (ij, v)). simpl fst. simpl snd.
      destruct (pos_eqb ij k) eqn:E; [|reflexivity].
      rewrite (stored_above ij ((ij', v') :: es)); [reflexivity|].
      simpl. constructor; [exact C|].
      rewrite Forall_forall in *. intros k' Hk'.
      apply (pos_lt_trans ij ij' k' C), Hall, Hk'.
    + rewrite (stored_cons (ij', v')). simpl fst. simpl snd.
      rewrite (stored_cons (ij', v') es k), (stored_cons (ij', v') es ij). simpl fst. simpl snd.
      assert (N : ij' <> ij) by (apply pos_lt_neq, pos_compare_gt, C).
      rewrite (pos_eqb_neq ij' ij N).
      destruct (pos_eqb ij' k) eqn:E.
      * apply pos_eqb_eq in E. subst k. rewrite (pos_eqb_neq ij ij'); congruence.
      * apply IH, S'.
Qed.

Lemma ratings_at_cons (e : Z * Z * F) (coo : list (Z * Z * F)) (k : Z * Z) :
  ratings_at (e :: coo) k =
  if pos_eqb (fst e) k then snd e :: ratings_at coo k else ratings_at coo k.
Proof. unfold ratings_at. simpl. destruct (pos_eqb (fst e) k); reflexivity. Qed.

Lemma fold_insert_row_major (coo acc : list (Z * Z * F)) :
  row_major acc ->
  row_major (fold_left (fun es e => coo_insert (fst e) (snd e) es) coo acc).
Proof.
  revert acc. induction coo as [|e coo IH]; simpl; intros acc S.
  - exact S.
  - apply IH, coo_insert_row_major, S.
Qed.

Lemma fold_insert_positions (coo acc : list (Z * Z * F)) (k : Z * Z) :
  In k (map fst (fold_left (fun es e => coo_insert (fst e) (snd e) es) coo acc)) <->
  In k (map fst coo) \/ In k (map fst acc).
Proof.
  revert acc. induction coo as [|e coo IH]; simpl; intros acc.
  - tauto.
  - rewrite IH, coo_insert_positions. intuition congruence.
Qed.

Lemma fold_insert_stored (coo acc : list (Z * Z * F)) (k : Z * Z) :
  row_major acc ->
  stored (fold_left (fun es e => coo_insert (fst e) (snd e) es) coo acc) k =
  match stored acc k with
  | Some w => Some (fold_left fadd (ratings_at coo k) w)
  | None => sum_run (ratings_at coo k)
  end.
Proof.
  revert acc. induction coo as [|e coo IH]; simpl; intros acc S.
  - destruct (stored acc k); reflexivity.
  - rewrite (IH _ (coo_insert_row_major (fst e) (snd e) acc S)).
    rewrite (stored_coo_insert (fst e) (snd e) acc k S), ratings_at_cons.
    destruct (pos_eqb (fst e) k) eqn:E.
    + apply pos_eqb_eq in E. rewrite E.
      destruct (stored acc k); reflexivity.
    + reflexivity.
Qed.

(** What [sum_duplicates] stores: the positions of the triples, in strict
    row-major order, each with the sum of its values in the order given. *)
Lemma sum_duplicates_row_major (coo : list (Z * Z * F)) : row_major (sum_duplicates coo).
Proof. apply fold_insert_row_major. constructor. Qed.

Lemma sum_duplicates_positions (coo : list (Z * Z * F)) (k : Z * Z) :
  In k (map fst (sum_duplicates coo)) <-> In k (map fst coo).
Proof. unfold sum_duplicates. rewrite fold_insert_positions. simpl. tauto. Qed.

Lemma sum_duplicates_stored (coo : list (Z * Z * F)) (k : Z * Z) :
  stored (sum_duplicates coo) k = sum_run (ratings_at coo k).
Proof.
  unfold sum_duplicates. rewrite fold_insert_stored by constructor. reflexivity.
Qed.

Lemma stored_In (es : list (Z * Z * F)) (k : Z * Z) (v : F) :
  stored es k = Some v -> In (k, v) es.
Proof.
  unfold stored. destruct (find _ es) as [[k' v']|] eqn:E; [|discriminate].
  intros [= <-]. apply find_some in E. destruct E as [I E].
  apply pos_eqb_eq in E. simpl in E. subst. exact I.
Qed.

Lemma In_stored (es : list (Z * Z * F)) (k : Z * Z) (v : F) :
  row_major es -> In (k, v) es -> stored es k = Some v.
Proof.
  unfold row_major. induction es as [|[k' v'] es IH]; simpl; intros S I.
  - contradiction.
  - inversion S as [|? ? S' Hall]; subst. rewrite stored_cons. simpl.
    destruct I as [E|I].
    + inversion E; subst. rewrite pos_eqb_refl. reflexivity.
    + rewrite pos_eqb_neq; [apply IH; assumption|].
      apply pos_lt_neq. rewrite Forall_forall in Hall. apply Hall.
      apply (in_map fst) in I. exact I.
Qed.

Lemma filter_row_major (f : Z * Z * F -> bool) (es : list (Z * Z * F)) :
  row_major es -> row_major (filter f es).
Proof.
  unfold row_major. induction es as [|e es IH]; simpl; intros S.
  - constructor.
  - inversion S as [|? ? S' Hall]; subst. destruct (f e); simpl.
    + constructor; [apply IH, S'|].
      rewrite Forall_forall in *. intros k Hk. apply Hall.
      apply in_map_iff in Hk. destruct Hk as [x [<- Hx]].
      apply filter_In in Hx. apply in_map, Hx.
    + apply IH, S'.
Qed.

Lemma combine_of_maps {A B C : Type} (f : A -> B) (g : A -> C) (l : list A) :
  combine (map f l) (map g l) = map (fun a => (f a, g a)) l.
Proof. induction l as [|a l IH]; simpl; [|rewrite IH]; reflexivity. Qed.

(** [zip(I, J)] lists the positions of the stored entries that are not
    zero, in the order they are stored. *)
Lemma visits_nonzero_entries (R : csr F) :
  visits R = map fst (filter (fun e => fnonzero (snd e)) (entries R)).
Proof.
  unfold visits, nonzero. simpl. rewrite combine_of_maps.
  apply map_ext. intros [[i j] v]. reflexivity.
Qed.

Lemma visits_spec (R : csr F) (ij : Z * Z) :
  row_major (entries R) ->
  In ij (visits R) <-> exists v, stored (entries R) ij = Some v /\ fnonzero v = true.
Proof.
  intros S. rewrite visits_nonzero_entries, in_map_iff. split.
  - intros [[k v] [E I]]. simpl in E. subst k. apply filter_In in I.
    destruct I as [I N]. exists v. split; [apply In_stored; assumption | exact N].
  - intros [v [E N]]. exists (ij, v). split; [reflexivity|].
    apply filter_In. split; [apply stored_In, E | exact N].
Qed.

Lemma np_max_spec (l : list Z) (m : Z) :
  np_max l = Some m -> In m l /\ Forall (fun x => x <= m) l.
Proof.
  destruct l as [|a l]; simpl; [discriminate|]. intros [= <-].
  assert (G : forall l a, (fold_left Z.max l a = a \/ In (fold_left Z.max l a) l) /\
                          a <= fold_left Z.max l a /\
                          Forall (fun x => x <= fold_left Z.max l a) l).
  { clear. induction l as [|b l IH]; simpl; intros a.
    - repeat split; [left; reflexivity | lia | constructor].
    - destruct (IH (Z.max a b)) as [I [L A]]. repeat split.
      + destruct I as [I|I]; [|right; right; exact I].
        rewrite I. destruct (Z.max_spec a b) as [[_ ->]|[_ ->]]; auto.
      + lia.
      + constructor; [lia | exact A]. }
  destruct (G l a) as [I [L A]]. split.
  - destruct I as [I|I]; [left; symmetry; exact I | right; exact I].
  - constructor; assumption.
Qed.

Lemma coo_of_combine (D : list (rating F)) :
  combine (combine (map (fun part => user part - 1) D)
                   (map (fun part => item part - 1) D))
          (map (fun part => stars part) D) = coo_of D.
Proof.
  unfold coo_of. induction D as [|x D IH]; simpl; [|rewrite IH]; reflexivity.
Qed.

Lemma existsb_negative (l : list Z) :
  Forall (fun x => 0 <= x) l -> existsb (fun i => i <? 0) l = false.
Proof.
  induction 1 as [|x l Hx _ IH]; simpl; [reflexivity|].
  rewrite IH. replace (x <? 0) with false by (symmetry; apply Z.ltb_ge; lia).
  reflexivity.
Qed.

(** A non-empty collection with ids from 1 on yields a matrix: its shape
    is the largest user id by the largest item id, every id fits in it,
    and it stores the summed coordinate triples. *)
Lemma csr_matrix_of_ratings (D : list (rating F)) :
  D <> [] ->
  Forall (fun x => 1 <= user x /\ 1 <= item x) D ->
  exists M N : Z,
    csr_matrix (map (fun part => stars part) D)
               (map (fun part => user part - 1) D)
               (map (fun part => item part - 1) D) =
    Ok {| shape := (M, N); entries := sum_duplicates (coo_of D) |} /\
    1 <= M /\ 1 <= N /\
    Forall (fun x => 1 <= user x <= M /\ 1 <= item x <= N) D.
Proof.
  intros HD Hids. unfold csr_matrix.
  destruct (np_max (map (fun part => user part - 1) D)) as [mr|] eqn:Er;
    [|destruct D; [congruence | discriminate]].
  destruct (np_max (map (fun part => item part - 1) D)) as [mc|] eqn:Ec;
    [|destruct D; [congruence | discriminate]].
  apply np_max_spec in Er. apply np_max_spec in Ec.
  destruct Er as [Ir Ar], Ec as [Ic Ac].
  apply in_map_iff in Ir. destruct Ir as [xr [Exr Ixr]].
  apply in_map_iff in Ic. destruct Ic as [xc [Exc Ixc]].
  rewrite Forall_forall in Hids.
  pose proof (Hids _ Ixr) as [Hr _]. pose proof (Hids _ Ixc) as [_ Hc].
  exists (mr + 1), (mc + 1).
  replace ((mr + 1 <? 0) || (mc + 1 <? 0)) with false
    by (symmetry; apply orb_false_iff; split; apply Z.ltb_ge; lia).
  rewrite !existsb_negative.
  - rewrite coo_of_combine. repeat split; try lia.
    apply Forall_forall. intros x Ix. destruct (Hids _ Ix) as [Hu Hi].
    rewrite Forall_forall in Ar, Ac.
    pose proof (Ar _ (in_map (fun part => user part - 1) D x Ix)) as Lr.
    pose proof (Ac _ (in_map (fun part => item part - 1) D x Ix)) as Lc.
    simpl in Lr, Lc. lia.
  - apply Forall_forall. intros j Ij. apply in_map_iff in Ij.
    destruct Ij as [x [<- Ix]]. destruct (Hids _ Ix). lia.
  - apply Forall_forall. intros i Ii. apply in_map_iff in Ii.
    destruct Ii as [x [<- Ix]]. destruct (Hids _ Ix). lia.
Qed.

End SparseFacts.

(** ** The generator *)

Section GeneratorFacts.
Context {F : Type} `{Scalar F}.
Context {G : Type} (random_sample : G -> F * G).

Lemma draw_row_samples (n : nat) (g : G) :
  draw_row random_sample n g = (samples random_sample n g, advance random_sample n g).
Proof.
  revert g. induction n as [|n IH]; intros g; simpl.
  - reflexivity.
  - destruct (random_sample g) as [x g1]. simpl. rewrite IH. reflexivity.
Qed.

Lemma length_samples (n : nat) (g : G) : length (samples random_sample n g) = n.
Proof. revert g. induction n as [|n IH]; intros g; simpl; [|rewrite IH]; reflexivity. Qed.

Lemma samples_add (a b : nat) (g : G) :
  samples random_sample (a + b) g =
  samples random_sample a g ++ samples random_sample b (advance random_sample a g).
Proof.
  revert g. induction a as [|a IH]; intros g; simpl; [|rewrite IH]; reflexivity.
Qed.

Lemma advance_add (a b : nat) (g : G) :
  advance random_sample (a + b) g = advance random_sample b (advance random_sample a g).
Proof.
  revert g. induction a as [|a IH]; intros g; simpl; [|rewrite IH]; reflexivity.
Qed.

Lemma firstn_exact {A : Type} (n : nat) (a b : list A) :
  length a = n -> firstn n (a ++ b) = a.
Proof.
  intros <-. induction a as [|x a IH]; simpl; [reflexivity | rewrite IH; reflexivity].
Qed.

Lemma skipn_exact {A : Type} (n : nat) (a b : list A) :
  length a = n -> skipn n (a ++ b) = b.
Proof.
  intros <-. induction a as [|x a IH]; simpl; [reflexivity | exact IH].
Qed.

(** [np.random.rand]'s array is the next [m * n] samples, cut into rows. *)
Lemma draw_rows_samples (m n : nat) (g : G) :
  draw_rows random_sample m n g =
  (rows_of m n (samples random_sample (m * n) g), advance random_sample (m * n) g).
Proof.
  revert g. induction m as [|m IH]; intros g; simpl.
  - reflexivity.
  - rewrite draw_row_samples, IH, samples_add, advance_add.
    rewrite firstn_exact, skipn_exact by apply length_samples. reflexivity.
Qed.

Lemma has_shape_rows_of (m n : nat) (p : list F) :
  length p = (m * n)%nat -> has_shape m n (rows_of m n p).
Proof.
  revert p. induction m as [|m IH]; intros p Hp; simpl.
  - split; [reflexivity | constructor].
  - destruct (IH (skipn n p)) as [L A].
    { rewrite length_skipn. simpl in Hp. lia. }
    split; simpl.
    + rewrite L. reflexivity.
    + constructor; [|exact A]. rewrite length_firstn. simpl in Hp. lia.
Qed.

(** Dimensions that are not negative give an array of that shape. *)
Lemma np_random_rand_shape (d0 d1 : Z) (g : G) :
  0 <= d0 -> 0 <= d1 ->
  np_random_rand random_sample d0 d1 g =
  (Ok (rows_of (Z.to_nat d0) (Z.to_nat d1)
               (samples random_sample (Z.to_nat d0 * Z.to_nat d1) g)),
   advance random_sample (Z.to_nat d0 * Z.to_nat d1) g) /\
  has_shape (Z.to_nat d0) (Z.to_nat d1)
            (rows_of (Z.to_nat d0) (Z.to_nat d1)
                     (samples random_sample (Z.to_nat d0 * Z.to_nat d1) g)).
Proof.
  intros H0 H1. unfold np_random_rand.
  replace ((d0 <? 0) || (d1 <? 0)) with false
    by (symmetry; apply orb_false_iff; split; apply Z.ltb_ge; lia).
  rewrite draw_rows_samples. split; [reflexivity|].
  apply has_shape_rows_of, length_samples.
Qed.

Lemma np_random_rand_negative (d0 d1 : Z) (g : G) :
  d0 < 0 \/ d1 < 0 ->
  np_random_rand random_sample d0 d1 g =
  (Raise (ValueError "negative dimensions are not allowed"%string), g).
Proof.
  intros D. unfold np_random_rand.
  replace ((d0 <? 0) || (d1 <? 0)) with true; [reflexivity|].
  symmetry. apply orb_true_iff. rewrite !Z.ltb_lt. exact D.
Qed.

(** Two generator states with the same stream of samples still have the
    same stream after any number of draws. *)
Lemma same_stream_advance (g g' : G) (a : nat) :
  (forall n, samples random_sample n g = samples random_sample n g') ->
  forall n, samples random_sample n (advance random_sample a g) =
            samples random_sample n (advance random_sample a g').
Proof.
  intros E n. pose proof (E (a + n)%nat) as Ean.
  rewrite !samples_add, (E a) in Ean.
  apply app_inv_head in Ean. exact Ean.
Qed.

End GeneratorFacts.

(** ** One update and one pass *)

Section UpdateFacts.
Context {F : Type} `{Scalar F}.

Lemma foldM_app {A S : Type} (f : A -> S -> result S) (l1 l2 : list A) (s : S) :
  foldM f (l1 ++ l2) s = (s1 <- foldM f l1 s ;; foldM f l2 s1).
Proof.
  revert s. induction l1 as [|a l1 IH]; intros s; simpl.
  - reflexivity.
  - destruct (f a s) as [s'|e]; simpl; [apply IH | reflexivity].
Qed.

Lemma length_updated_row (GAMMA LAMBDA e : F) (own other : vec F) :
  length other = length own ->
  length (updated_row GAMMA LAMBDA e own other) = length own.
Proof.
  intros E. unfold updated_row.
  rewrite length_vadd; [reflexivity|].
  rewrite length_vscale, length_vsub; rewrite !length_vscale; congruence.
Qed.

(** The update at a position inside the factor matrices: what it returns. *)
Lemma sgd_step_inside (R : csr F) (GAMMA LAMBDA : F) (M N K : nat)
    (i j : Z) (P Q : matrix F) :
  has_shape M K P -> has_shape N K Q -> inside M N (i, j) ->
  sgd_step R GAMMA LAMBDA (i, j) (P, Q) =
  let p := nth (Z.to_nat i) P [] in
  let q := nth (Z.to_nat j) Q [] in
  let e := fsub (csr_get R i j) (dot_product K p q) in
  Ok (replace_nth (Z.to_nat i) (updated_row GAMMA LAMBDA e p q) P,
      replace_nth (Z.to_nat j) (updated_row GAMMA LAMBDA e q p) Q).
Proof.
  intros HP HQ [Hi Hj]. simpl in Hi, Hj.
  pose proof HP as [LP _]. pose proof HQ as [LQ _].
  unfold sgd_step.
  rewrite (get_row_in_range P i) by lia.
  rewrite (get_row_in_range Q j) by lia.
  simpl.
  assert (Lp : length (nth (Z.to_nat i) P []) = K)
    by (apply (has_shape_row M K P); [exact HP | lia]).
  assert (Lq : length (nth (Z.to_nat j) Q []) = K)
    by (apply (has_shape_row N K Q); [exact HQ | lia]).
  rewrite predict_same_length by congruence.
  rewrite (dot_by_index K) by assumption.
  simpl. rewrite !set_row_in_range by lia. reflexivity.
Qed.

Lemma sgd_step_shape (R : csr F) (GAMMA LAMBDA : F) (M N K : nat)
    (ij : Z * Z) (PQ : matrix F * matrix F) :
  has_shape M K (fst PQ) -> has_shape N K (snd PQ) -> inside M N ij ->
  exists PQ', sgd_step R GAMMA LAMBDA ij PQ = Ok PQ' /\
              has_shape M K (fst PQ') /\ has_shape N K (snd PQ').
Proof.
  destruct ij as [i j], PQ as [P Q]. intros HP HQ Hin. simpl in HP, HQ.
  rewrite (sgd_step_inside R GAMMA LAMBDA M N K i j P Q HP HQ Hin).
  destruct Hin as [Hi Hj]. simpl in Hi, Hj.
  assert (Lp : length (nth (Z.to_nat i) P []) = K)
    by (apply (has_shape_row M K P); [exact HP | lia]).
  assert (Lq : length (nth (Z.to_nat j) Q []) = K)
    by (apply (has_shape_row N K Q); [exact HQ | lia]).
  eexists. split; [reflexivity|]. simpl. split.
  - apply has_shape_replace_nth; [|exact HP].
    rewrite length_updated_row; congruence.
  - apply has_shape_replace_nth; [|exact HQ].
    rewrite length_updated_row; congruence.
Qed.

(** A pass over positions inside the matrices runs to its end and keeps
    the shapes. *)
Lemma epoch_pass_shape (R : csr F) (GAMMA LAMBDA : F) (M N K : nat)
    (IJ : list (Z * Z)) (PQ : matrix F * matrix F) :
  Forall (inside M N) IJ ->
  has_shape M K (fst PQ) -> has_shape N K (snd PQ) ->
  exists PQ', epoch_pass R GAMMA LAMBDA IJ PQ = Ok PQ' /\
              has_shape M K (fst PQ') /\ has_shape N K (snd PQ').
Proof.
  intros HIJ. revert PQ. unfold epoch_pass.
  induction HIJ as [|ij IJ Hij _ IH]; intros PQ HP HQ; simpl.
  - exists PQ. auto.
  - destruct (sgd_step_shape R GAMMA LAMBDA M N K ij PQ HP HQ Hij)
      as [PQ1 [-> [HP1 HQ1]]].
    simpl. apply IH; assumption.
Qed.

Lemma nth_pairwise (f : F * F -> F) (p q : vec F) (t : nat) :
  length p = length q -> (t < length p)%nat ->
  nth t (map f (combine p q)) fzero = f (nth t p fzero, nth t q fzero).
Proof.
  revert q t. induction p as [|a p IH]; intros [|b q] t E Ht; simpl in *; try lia.
  destruct t as [|t]; [reflexivity|]. apply IH; lia.
Qed.

Lemma nth_vscale (c : F) (p : vec F) (t : nat) :
  (t < length p)%nat -> nth t (vscale c p) fzero = fmul c (nth t p fzero).
Proof.
  revert t. induction p as [|a p IH]; intros t Ht; simpl in *; [lia|].
  destruct t as [|t]; [reflexivity|]. apply IH. lia.
Qed.

(** The new row, one component at a time. *)
Lemma nth_updated_row (GAMMA LAMBDA e : F) (own other : vec F) (K t : nat) :
  length own = K -> length other = K -> (t < K)%nat ->
  nth t (updated_row GAMMA LAMBDA e own other) fzero =
  fadd (nth t own fzero)
       (fmul GAMMA (fsub (fmul (fmul (fof_Z 2) e) (nth t other fzero))
                         (fmul (fmul (fof_Z 2) LAMBDA) (nth t own fzero)))).
Proof.
  intros Ho Hx Ht. unfold updated_row, vadd.
  rewrite nth_pairwise; simpl fst; simpl snd.
  - f_equal. rewrite nth_vscale.
    + f_equal. unfold vsub. rewrite nth_pairwise; simpl fst; simpl snd.
      * rewrite !nth_vscale by lia. reflexivity.
      * rewrite !length_vscale. lia.
      * rewrite length_vscale. lia.
    + rewrite length_vsub; rewrite !length_vscale; lia.
  - rewrite length_vscale, length_vsub; rewrite !length_vscale; lia.
  - lia.
Qed.

(** C1: within a pass, the position [(i, j)] is handled by one update
    step, run on the factors the positions before it have left.  With
    [p = P[i,:]] and [q = Q[j,:]] as they are when the step starts and
    [e = R[i,j] - p . q], the step puts in row [i] of [P] the vector whose
    component [t] is [p_t + gamma * (2 * e * q_t - 2 * lambda * p_t)] and in
    row [j] of [Q] the vector whose component [t] is
    [q_t + gamma * (2 * e * p_t - 2 * lambda * q_t)], with [p_t] the value
    before the step; every other row of [P] and of [Q] is as it was. *)
Theorem sgd_step_simultaneous (R : csr F) (GAMMA LAMBDA : F) (M N K : nat)
    (before after : list (Z * Z)) (i j : Z) (PQ0 P_Q : matrix F * matrix F) :
  epoch_pass R GAMMA LAMBDA before PQ0 = Ok P_Q ->
  has_shape M K (fst P_Q) -> has_shape N K (snd P_Q) -> inside M N (i, j) ->
  let P := fst P_Q in
  let Q := snd P_Q in
  let p := nth (Z.to_nat i) P [] in
  let q := nth (Z.to_nat j) Q [] in
  let e := fsub (csr_get R i j) (dot_product K p q) in
  exists (P' Q' : matrix F) (p' q' : vec F),
    sgd_step R GAMMA LAMBDA (i, j) (P, Q) = Ok (P', Q') /\
    epoch_pass R GAMMA LAMBDA (before ++ (i, j) :: after) PQ0 =
      epoch_pass R GAMMA LAMBDA after (P', Q') /\
    nth_error P' (Z.to_nat i) = Some p' /\
    nth_error Q' (Z.to_nat j) = Some q' /\
    length p' = K /\ length q' = K /\
    (forall t, (t < K)%nat ->
       nth t p' fzero =
       fadd (nth t p fzero)
            (fmul GAMMA (fsub (fmul (fmul (fof_Z 2) e) (nth t q fzero))
                              (fmul (fmul (fof_Z 2) LAMBDA) (nth t p fzero))))) /\
    (forall t, (t < K)%nat ->
       nth t q' fzero =
       fadd (nth t q fzero)
            (fmul GAMMA (fsub (fmul (fmul (fof_Z 2) e) (nth t p fzero))
                              (fmul (fmul (fof_Z 2) LAMBDA) (nth t q fzero))))) /\
    length P' = length P /\ length Q' = length Q /\
    (forall n, n <> Z.to_nat i -> nth_error P' n = nth_error P n) /\
    (forall n, n <> Z.to_nat j -> nth_error Q' n = nth_error Q n).
Proof.
  intros Hbefore HP HQ Hin. destruct P_Q as [P Q]. simpl in *.
  pose proof (sgd_step_inside R GAMMA LAMBDA M N K i j P Q HP HQ Hin) as Hstep.
  simpl in Hstep.
  destruct Hin as [Hi Hj]. simpl in Hi, Hj.
  assert (Lp : length (nth (Z.to_nat i) P []) = K)
    by (apply (has_shape_row M K P); [exact HP | lia]).
  assert (Lq : length (nth (Z.to_nat j) Q []) = K)
    by (apply (has_shape_row N K Q); [exact HQ | lia]).
  destruct HP as [LP _], HQ as [LQ _].
  eexists. eexists. eexists. eexists.
  split; [exact Hstep|].
  split; [unfold epoch_pass in *; rewrite foldM_app, Hbefore; simpl;
          rewrite Hstep; reflexivity|].
  split; [apply nth_error_replace_nth_same; lia|].
  split; [apply nth_error_replace_nth_same; lia|].
  split; [rewrite length_updated_row; congruence|].
  split; [rewrite length_updated_row; congruence|].
  split; [intros t Ht; apply (nth_updated_row _ _ _ _ _ K); assumption|].
  split; [intros t Ht; apply (nth_updated_row _ _ _ _ _ K); assumption|].
  split; [apply length_replace_nth|].
  split; [apply length_replace_nth|].
  split; intros n Hn; apply nth_error_replace_nth_other; exact Hn.
Qed.

End UpdateFacts.

(** ** The epoch loop *)

Section LoopFacts.
Context {F : Type} `{Scalar F}.

Lemma length_mapM {A B : Type} (f : A -> result B) (l : list A) (bs : list B) :
  mapM f l = Ok bs -> length bs = length l.
Proof.
  revert bs. induction l as [|a l IH]; simpl; intros bs E.
  - inversion E. reflexivity.
  - destruct (f a) as [b|e]; simpl in E; [|discriminate].
    destruct (mapM f l) as [bs'|e]; simpl in E; [|discriminate].
    inversion E. simpl. rewrite (IH bs' eq_refl). reflexivity.
Qed.

Lemma computeMSE_shape (D : list (rating F)) (M N K : nat) (P Q : matrix F) :
  D <> [] ->
  Forall (fun x => 1 <= user x <= Z.of_nat M /\ 1 <= item x <= Z.of_nat N) D ->
  has_shape M K P -> has_shape N K Q ->
  exists m, computeMSE D P Q = Ok m.
Proof.
  intros HD Hids [LP AP] [LQ AQ]. eexists.
  apply (computeMSE_in_range K D P Q HD AP AQ).
  unfold ids_in_range. rewrite LP, LQ. exact Hids.
Qed.

Lemma after_epochs_shape (R : csr F) (GAMMA LAMBDA : F) (M N K : nat)
    (PQ0 : matrix F * matrix F) (n : nat) :
  Forall (inside M N) (visits R) ->
  has_shape M K (fst PQ0) -> has_shape N K (snd PQ0) ->
  exists PQ, after_epochs R GAMMA LAMBDA n PQ0 = Ok PQ /\
             has_shape M K (fst PQ) /\ has_shape N K (snd PQ).
Proof.
  intros HIJ HP HQ. induction n as [|n [PQ [E [HP' HQ']]]]; simpl.
  - exists PQ0. auto.
  - rewrite E. simpl. apply (epoch_pass_shape R GAMMA LAMBDA M N K); assumption.
Qed.

(** The loop from epoch [a] on, for [n] epochs: it ends, its factors are
    those after [a + n] epochs, and it appends the loss records of the
    epochs [a + 1] to [a + n]. *)
Lemma epochs_loop (D : list (rating F)) (R : csr F) (GAMMA LAMBDA : F)
    (M N K : nat) (PQ0 : matrix F * matrix F) :
  D <> [] ->
  Forall (fun x => 1 <= user x <= Z.of_nat M /\ 1 <= item x <= Z.of_nat N) D ->
  Forall (inside M N) (visits R) ->
  forall (n a : nat) (PQa : matrix F * matrix F) (mse : list (Z * F)),
    after_epochs R GAMMA LAMBDA a PQ0 = Ok PQa ->
    has_shape M K (fst PQa) -> has_shape N K (snd PQa) ->
    exists PQ' recs,
      foldM (epoch_body D R GAMMA LAMBDA (visits R)) (map Z.of_nat (seq a n))
            (fst PQa, snd PQa, mse) = Ok (fst PQ', snd PQ', mse ++ recs) /\
      after_epochs R GAMMA LAMBDA (a + n) PQ0 = Ok PQ' /\
      mapM (loss_at D R GAMMA LAMBDA PQ0) (seq (S a) n) = Ok recs.
Proof.
  intros HD Hids HIJ. induction n as [|n IH]; intros a PQa mse Ea HP HQ.
  - exists PQa, []. simpl. rewrite app_nil_r, Nat.add_0_r. auto.
  - destruct PQa as [P Q]. simpl in HP, HQ.
    destruct (epoch_pass_shape R GAMMA LAMBDA M N K (visits R) (P, Q) HIJ HP HQ)
      as [PQ1 [E1 [HP1 HQ1]]].
    destruct (computeMSE_shape D M N K (fst PQ1) (snd PQ1) HD Hids HP1 HQ1)
      as [m1 Em1].
    assert (Ea1 : after_epochs R GAMMA LAMBDA (S a) PQ0 = Ok PQ1)
      by (simpl; rewrite Ea; exact E1).
    destruct (IH (S a) PQ1 (mse ++ [(Z.of_nat a + 1, m1)]) Ea1 HP1 HQ1)
      as [PQ' [recs [Eloop [Eafter Erecs]]]].
    exists PQ', ((Z.of_nat (S a), m1) :: recs). repeat split.
    + simpl. rewrite E1. simpl. unfold record_mse. rewrite Em1. simpl.
      rewrite Eloop, <- app_assoc. simpl.
      replace (Z.of_nat a + 1) with (Z.pos (Pos.of_succ_nat a)) by lia.
      reflexivity.
    + rewrite <- Eafter. f_equal. lia.
    + change (seq (S a) (S n)) with (S a :: seq (S (S a)) n).
      change (mapM (loss_at D R GAMMA LAMBDA PQ0) (S a :: seq (S (S a)) n))
        with (b <- loss_at D R GAMMA LAMBDA PQ0 (S a) ;;
              bs <- mapM (loss_at D R GAMMA LAMBDA PQ0) (seq (S (S a)) n) ;;
              Ok (b :: bs)).
      unfold loss_at at 1. rewrite Ea1. simpl. rewrite Em1. simpl.
      rewrite Erecs. reflexivity.
Qed.

End LoopFacts.

(** ** The trainer *)

Section TrainerFacts.
Context {F : Type} `{Scalar F}.
Context {G : Type} (random_sample : G -> F * G).

(** The matrix [GD] builds from a dataset with largest ids [M] and [N]. *)
Lemma visits_inside (D : list (rating F)) (M N : Z) :
  Forall (fun x => 1 <= user x <= M /\ 1 <= item x <= N) D ->
  Forall (inside (Z.to_nat M) (Z.to_nat N))
         (visits {| shape := (M, N); entries := sum_duplicates (coo_of D) |}).
Proof.
  intros Hids. apply Forall_forall. intros ij Hij.
  rewrite visits_nonzero_entries in Hij. simpl in Hij.
  apply in_map_iff in Hij. destruct Hij as [e [<- He]].
  apply filter_In in He. destruct He as [He _].
  apply (in_map fst) in He. rewrite sum_duplicates_positions in He.
  unfold coo_of in He. rewrite map_map in He. simpl in He.
  apply in_map_iff in He. destruct He as [x [<- Hx]].
  rewrite Forall_forall in Hids. destruct (Hids x Hx) as [Hu Hi].
  unfold inside. simpl. lia.
Qed.

(** A run of [GD] on a non-empty dataset with ids from 1 on and a rank
    that is not negative: it returns; the factors it returns are those
    after [MAXITER] epochs (none when [MAXITER] is negative) started from
    the drawn factors; the history holds the loss record of every epoch
    from 0 on; the generator has advanced by the samples of [P] and [Q]. *)
Lemma GD_run (D : list (rating F)) (K MAXITER : Z) (GAMMA LAMBDA : F) (g : G) :
  D <> [] ->
  Forall (fun x => 1 <= user x /\ 1 <= item x) D ->
  0 <= K ->
  exists M N : Z,
    1 <= M /\ 1 <= N /\
    Forall (fun x => 1 <= user x <= M /\ 1 <= item x <= N) D /\
    let R := {| shape := (M, N); entries := sum_duplicates (coo_of D) |} in
    let PQ0 := (initial_P random_sample M K g, initial_Q random_sample M N K g) in
    csr_matrix (map (fun part => stars part) D)
               (map (fun part => user part - 1) D)
               (map (fun part => item part - 1) D) = Ok R /\
    has_shape (Z.to_nat M) (Z.to_nat K) (fst PQ0) /\
    has_shape (Z.to_nat N) (Z.to_nat K) (snd PQ0) /\
    exists PQ mse,
      GD random_sample D K MAXITER GAMMA LAMBDA g =
        (Ok (fst PQ, snd PQ, mse), generator_after random_sample M N K g) /\
      after_epochs R GAMMA LAMBDA (Z.to_nat MAXITER) PQ0 = Ok PQ /\
      mapM (loss_at D R GAMMA LAMBDA PQ0) (seq 0 (S (Z.to_nat MAXITER))) = Ok mse.
Proof.
  intros HD Hids HK.
  destruct (csr_matrix_of_ratings D HD Hids) as [M [N [Ecsr [HM [HN Hfit]]]]].
  exists M, N.
  split; [exact HM|]. split; [exact HN|]. split; [exact Hfit|].
  set (R := {| shape := (M, N); entries := sum_duplicates (coo_of D) |}).
  set (P0 := initial_P random_sample M K g).
  set (Q0 := initial_Q random_sample M N K g).
  assert (HP0 : has_shape (Z.to_nat M) (Z.to_nat K) P0)
    by (apply (np_random_rand_shape random_sample M K g); lia).
  assert (HQ0 : has_shape (Z.to_nat N) (Z.to_nat K) Q0)
    by (apply (np_random_rand_shape random_sample N K
                 (advance random_sample (Z.to_nat M * Z.to_nat K) g)); lia).
  cbv zeta. split; [exact Ecsr|]. split; [exact HP0|]. split; [exact HQ0|].
  - 
    assert (Hfit' : Forall (fun x => 1 <= user x <= Z.of_nat (Z.to_nat M) /\
                                     1 <= item x <= Z.of_nat (Z.to_nat N)) D).
    { rewrite !Z2Nat.id by lia. exact Hfit. }
    pose proof (visits_inside D M N Hfit) as HIJ. fold R in HIJ.
    destruct (computeMSE_shape D _ _ _ P0 Q0 HD Hfit' HP0 HQ0) as [m0 Em0].
    destruct (epochs_loop D R GAMMA LAMBDA _ _ _ (P0, Q0) HD Hfit' HIJ
                (Z.to_nat MAXITER) 0%nat (P0, Q0) [(0, m0)] eq_refl HP0 HQ0)
      as [PQ [recs [Eloop [Eafter Erecs]]]].
    exists PQ, ((0, m0) :: recs).
    split; [|split].
    + unfold GD, rand_bind, rand_lift. rewrite Ecsr. fold R.
      change (fst (shape R)) with M. change (snd (shape R)) with N.
      assert (EP : np_random_rand random_sample M K g =
                   (Ok P0, advance random_sample (Z.to_nat M * Z.to_nat K) g))
        by (apply np_random_rand_shape; lia).
      assert (EQ : np_random_rand random_sample N K
                     (advance random_sample (Z.to_nat M * Z.to_nat K) g) =
                   (Ok Q0, generator_after random_sample M N K g))
        by (apply np_random_rand_shape; lia).
      rewrite EP. cbv beta iota. rewrite EQ. cbv beta iota.
      rewrite Em0. cbn [bind].
      unfold range. fold (visits R).
      simpl fst in Eloop. simpl snd in Eloop. rewrite Eloop. reflexivity.
    + exact Eafter.
    + change (seq 0 (S (Z.to_nat MAXITER))) with (0%nat :: seq 1 (Z.to_nat MAXITER)).
      change (mapM (loss_at D R GAMMA LAMBDA (P0, Q0)) (0%nat :: seq 1 (Z.to_nat MAXITER)))
        with (b <- loss_at D R GAMMA LAMBDA (P0, Q0) 0 ;;
              bs <- mapM (loss_at D R GAMMA LAMBDA (P0, Q0)) (seq 1 (Z.to_nat MAXITER)) ;;
              Ok (b :: bs)).
      unfold loss_at at 1. simpl after_epochs. cbn [bind fst snd].
      rewrite Em0. cbn [bind]. rewrite Erecs. reflexivity.
Qed.

Lemma loss_epochs (D : list (rating F)) (R : csr F) (GAMMA LAMBDA : F)
    (PQ0 : matrix F * matrix F) (l : list nat) (recs : list (Z * F)) :
  mapM (loss_at D R GAMMA LAMBDA PQ0) l = Ok recs -> map fst recs = map Z.of_nat l.
Proof.
  revert recs. induction l as [|t l IH]; simpl; intros recs E.
  - inversion E. reflexivity.
  - unfold loss_at at 1 in E.
    destruct (after_epochs R GAMMA LAMBDA t PQ0) as [PQ|e]; simpl in E; [|discriminate].
    destruct (computeMSE D (fst PQ) (snd PQ)) as [m|e]; simpl in E; [|discriminate].
    destruct (mapM (loss_at D R GAMMA LAMBDA PQ0) l) as [recs'|e]; simpl in E; [|discriminate].
    inversion E. simpl. rewrite (IH recs' eq_refl). reflexivity.
Qed.

Lemma ratings_at_coo_of (D : list (rating F)) (u v : Z) :
  ratings_at (coo_of D) (u - 1, v - 1) = map (fun y => stars y) (records_of D u v).
Proof.
  unfold ratings_at, coo_of, records_of. induction D as [|y D IH]; simpl.
  - reflexivity.
  - unfold pos_eqb at 1. simpl.
    replace (user y - 1 =? u - 1) with (user y =? u)
      by (destruct (Z.eqb_spec (user y) u), (Z.eqb_spec (user y - 1) (u - 1)); lia || reflexivity).
    replace (item y - 1 =? v - 1) with (item y =? v)
      by (destruct (Z.eqb_spec (item y) v), (Z.eqb_spec (item y - 1) (v - 1)); lia || reflexivity).
    destruct ((user y =? u) && (item y =? v)); simpl; rewrite IH; reflexivity.
Qed.

Lemma csr_matrix_raises (data : list F) (row col : list Z) (e : exn) :
  csr_matrix data row col = Raise e -> exists msg, e = ValueError msg.
Proof.
  unfold csr_matrix. intros E.
  destruct (np_max row), (np_max col);
    repeat (match type of E with
            | (if ?c then _ else _) = _ => destruct c
            end);
    inversion E; eexists; reflexivity.
Qed.

Lemma np_random_rand_same_stream (d0 d1 : Z) (g g' : G) :
  (forall n, samples random_sample n g = samples random_sample n g') ->
  fst (np_random_rand random_sample d0 d1 g) = fst (np_random_rand random_sample d0 d1 g') /\
  forall n, samples random_sample n (snd (np_random_rand random_sample d0 d1 g)) =
            samples random_sample n (snd (np_random_rand random_sample d0 d1 g')).
Proof.
  intros E. unfold np_random_rand.
  destruct ((d0 <? 0) || (d1 <? 0)); simpl.
  - split; [reflexivity | exact E].
  - rewrite !draw_rows_samples. simpl. rewrite E. split; [reflexivity|].
    apply same_stream_advance, E.
Qed.

End TrainerFacts.

(** ** What [GD] does *)

Section TrainerClaims.
Context {F : Type} `{Scalar F}.
Context {G : Type} (random_sample : G -> F * G).

(** C3: on a non-empty training set with ids from 1 on, a rank that is not
    negative and [MAXITER >= 0], [GD] returns, and its loss history has
    exactly [MAXITER + 1] records, numbered [0, 1, ..., MAXITER] in that
    order; record 0 is [computeMSE] (the plain MSE, no penalty term) of the
    factors [np.random.rand] has just drawn, to which no update has been
    applied. *)
Theorem GD_loss_history (D : list (rating F)) (K MAXITER : Z) (GAMMA LAMBDA : F) (g : G) :
  D <> [] ->
  Forall (fun x => 1 <= user x /\ 1 <= item x) D ->
  0 <= K -> 0 <= MAXITER ->
  exists (R : csr F) (P0 Q0 P Q : matrix F) (g1 g2 : G) (m0 : F) (mse : list (Z * F)),
    csr_matrix (map (fun part => stars part) D)
               (map (fun part => user part - 1) D)
               (map (fun part => item part - 1) D) = Ok R /\
    np_random_rand random_sample (fst (shape R)) K g = (Ok P0, g1) /\
    np_random_rand random_sample (snd (shape R)) K g1 = (Ok Q0, g2) /\
    computeMSE D P0 Q0 = Ok m0 /\
    GD random_sample D K MAXITER GAMMA LAMBDA g = (Ok (P, Q, mse), g2) /\
    Z.of_nat (length mse) = MAXITER + 1 /\
    map fst mse = range (MAXITER + 1) /\
    nth_error mse 0 = Some (0, m0).
Proof.
  intros HD Hids HK HT.
  destruct (GD_run random_sample D K MAXITER GAMMA LAMBDA g HD Hids HK)
    as [M [N [HM [HN [Hfit Hrun]]]]].
  cbv zeta in Hrun.
  destruct Hrun as [Ecsr [HP0 [HQ0 [PQ [mse [EGD [Eafter Emse]]]]]]].
  simpl fst in HP0. simpl snd in HQ0.
  assert (Hfit' : Forall (fun x => 1 <= user x <= Z.of_nat (Z.to_nat M) /\
                                   1 <= item x <= Z.of_nat (Z.to_nat N)) D)
    by (rewrite !Z2Nat.id by lia; exact Hfit).
  destruct (computeMSE_shape D _ _ _ _ _ HD Hfit' HP0 HQ0) as [m0 Em0].
  eexists. exists (initial_P random_sample M K g), (initial_Q random_sample M N K g).
  exists (fst PQ), (snd PQ), (advance random_sample (Z.to_nat M * Z.to_nat K) g).
  exists (generator_after random_sample M N K g), m0, mse.
  split; [exact Ecsr|]. simpl shape. simpl fst. simpl snd.
  split; [apply np_random_rand_shape; lia|].
  split; [apply np_random_rand_shape; lia|].
  split; [exact Em0|].
  split; [exact EGD|].
  split; [|split].
  - rewrite (length_mapM _ _ _ Emse), length_seq. lia.
  - rewrite (loss_epochs _ _ _ _ _ _ _ Emse). unfold range.
    replace (Z.to_nat (MAXITER + 1)) with (S (Z.to_nat MAXITER)) by lia.
    reflexivity.
  - change (seq 0 (S (Z.to_nat MAXITER))) with (0%nat :: seq 1 (Z.to_nat MAXITER)) in Emse.
    simpl in Emse. unfold loss_at at 1 in Emse. simpl in Emse.
    rewrite Em0 in Emse. simpl in Emse.
    destruct (mapM _ (seq 1 (Z.to_nat MAXITER))) as [recs|e]; simpl in Emse; [|discriminate].
    inversion Emse. reflexivity.
Qed.

(** C4, as the code has it: on a non-empty training set with ids from 1
    on and a rank that is not negative, [GD] returns, and
    - the positions an epoch visits are in strict row-major order, so none
      comes twice, and they are exactly the positions [(u-1, v-1)] for which
      the ratings the training set holds for [(u, v)], added up in collection
      order, are not zero;
    - the factors returned are those after [MAXITER] epochs (none if
      [MAXITER < 0]), each epoch being one update per visited position, in
      that order, whatever the losses were;
    - the history is the loss record of every epoch from 0 to [MAXITER],
      record [t] holding [computeMSE] of the factors after [t] epochs. *)
Theorem GD_epochs (D : list (rating F)) (K MAXITER : Z) (GAMMA LAMBDA : F) (g : G) :
  D <> [] ->
  Forall (fun x => 1 <= user x /\ 1 <= item x) D ->
  0 <= K ->
  exists (R : csr F) (P0 Q0 : matrix F) (g1 g2 : G)
         (PQ : matrix F * matrix F) (mse : list (Z * F)),
    csr_matrix (map (fun part => stars part) D)
               (map (fun part => user part - 1) D)
               (map (fun part => item part - 1) D) = Ok R /\
    np_random_rand random_sample (fst (shape R)) K g = (Ok P0, g1) /\
    np_random_rand random_sample (snd (shape R)) K g1 = (Ok Q0, g2) /\
    StronglySorted pos_lt (visits R) /\
    (forall u v, In (u - 1, v - 1) (visits R) <->
                 exists s, sum_run (map (fun y => stars y) (records_of D u v)) = Some s /\
                           fnonzero s = true) /\
    GD random_sample D K MAXITER GAMMA LAMBDA g = (Ok (fst PQ, snd PQ, mse), g2) /\
    after_epochs R GAMMA LAMBDA (Z.to_nat MAXITER) (P0, Q0) = Ok PQ /\
    mapM (loss_at D R GAMMA LAMBDA (P0, Q0)) (seq 0 (S (Z.to_nat MAXITER))) = Ok mse.
Proof.
  intros HD Hids HK.
  destruct (GD_run random_sample D K MAXITER GAMMA LAMBDA g HD Hids HK)
    as [M [N [HM [HN [Hfit Hrun]]]]].
  cbv zeta in Hrun.
  destruct Hrun as [Ecsr [HP0 [HQ0 [PQ [mse [EGD [Eafter Emse]]]]]]].
  eexists. exists (initial_P random_sample M K g), (initial_Q random_sample M N K g).
  exists (advance random_sample (Z.to_nat M * Z.to_nat K) g).
  exists (generator_after random_sample M N K g), PQ, mse.
  split; [exact Ecsr|]. simpl shape. simpl fst. simpl snd.
  split; [apply np_random_rand_shape; lia|].
  split; [apply np_random_rand_shape; lia|].
  split; [|split; [|split; [exact EGD | split; [exact Eafter | exact Emse]]]].
  - rewrite visits_nonzero_entries. simpl entries.
    apply (filter_row_major _ _ (sum_duplicates_row_major (coo_of D))).
  - intros u v. rewrite visits_spec by (simpl; apply sum_duplicates_row_major).
    simpl entries. rewrite sum_duplicates_stored, ratings_at_coo_of. reflexivity.
Qed.

(** C5, as the code has it: with no record in the training set [GD]
    raises the [ValueError] of the sparse-matrix constructor, which cannot
    infer a shape from empty index arrays; nothing has been drawn from the
    generator, no factor matrix exists and [computeMSE] has not been
    called.  [computeMSE] itself, on no record, raises [EmptyDatasetError].
    Neither returns a number. *)
Theorem GD_empty_dataset (K MAXITER : Z) (GAMMA LAMBDA : F) (g : G) (P Q : matrix F) :
  GD random_sample [] K MAXITER GAMMA LAMBDA g =
    (Raise (ValueError "cannot infer dimensions from zero sized index arrays"%string), g) /\
  computeMSE [] P Q = Raise EmptyDatasetError /\
  csr_matrix (@nil F) [] [] =
    Raise (ValueError "cannot infer dimensions from zero sized index arrays"%string).
Proof.
  split; [|split].
  - unfold GD, rand_bind, rand_lift. simpl. reflexivity.
  - reflexivity.
  - reflexivity.
Qed.

(** C6, as the code has it: with [K < 0], whatever the training set,
    [GD] raises a [ValueError] and the generator is as it was: no sample
    has been drawn and no factor matrix has been made.  (The error comes
    from the sparse-matrix constructor when the training set is refused,
    and otherwise from [np.random.rand(M, K)] itself.) *)
Theorem GD_negative_rank (D : list (rating F)) (K MAXITER : Z) (GAMMA LAMBDA : F) (g : G) :
  K < 0 ->
  exists msg, GD random_sample D K MAXITER GAMMA LAMBDA g = (Raise (ValueError msg), g).
Proof.
  intros HK. unfold GD, rand_bind, rand_lift.
  destruct (csr_matrix _ _ _) as [R|e] eqn:E.
  - rewrite np_random_rand_negative by (right; exact HK).
    eexists. reflexivity.
  - apply csr_matrix_raises in E. destruct E as [msg ->]. exists msg. reflexivity.
Qed.

(** With [K = 0] nothing is refused: the factors have rows of length 0. *)
Lemma GD_rank_zero (D : list (rating F)) (MAXITER : Z) (GAMMA LAMBDA : F) (g : G) :
  D <> [] ->
  Forall (fun x => 1 <= user x /\ 1 <= item x) D ->
  exists P Q mse,
    GD random_sample D 0 MAXITER GAMMA LAMBDA g = (Ok (P, Q, mse), g) /\
    Forall (fun r => r = []) P /\ Forall (fun r => r = []) Q.
Proof.
  intros HD Hids.
  destruct (GD_run random_sample D 0 MAXITER GAMMA LAMBDA g HD Hids (Z.le_refl 0))
    as [M [N [HM [HN [Hfit Hrun]]]]].
  cbv zeta in Hrun.
  destruct Hrun as [Ecsr [HP0 [HQ0 [PQ [mse [EGD [Eafter Emse]]]]]]].
  destruct (after_epochs_shape _ GAMMA LAMBDA _ _ _ _ (Z.to_nat MAXITER)
              (visits_inside D M N Hfit) HP0 HQ0) as [PQ' [E' [[_ HP] [_ HQ]]]].
  rewrite Eafter in E'. inversion E'; subst PQ'.
  exists (fst PQ), (snd PQ), mse. split; [|split].
  - rewrite EGD. f_equal. unfold generator_after.
    rewrite !Nat.mul_0_r. reflexivity.
  - eapply Forall_impl; [|exact HP]. intros r Hr. apply length_zero_iff_nil. exact Hr.
  - eapply Forall_impl; [|exact HQ]. intros r Hr. apply length_zero_iff_nil. exact Hr.
Qed.

(** C8, as the code has it: [GD] has no seed among its arguments; the
    one input it has besides them is the state of numpy's generator.  On a
    non-empty training set with ids from 1 on and a rank that is not
    negative, with [(M, N)] the shape of the matrix, a run returns, reads
    exactly the next [M * K + N * K] samples of the generator and leaves it
    advanced by as many; any run on the same records in the same order and
    the same parameters whose generator gives these same samples returns
    the same [P], the same [Q] and the same loss history. *)
Theorem GD_reads_generator (D : list (rating F)) (K MAXITER : Z) (GAMMA LAMBDA : F) (g : G) :
  D <> [] ->
  Forall (fun x => 1 <= user x /\ 1 <= item x) D ->
  0 <= K ->
  exists (R : csr F) (P Q : matrix F) (mse : list (Z * F)),
    csr_matrix (map (fun part => stars part) D)
               (map (fun part => user part - 1) D)
               (map (fun part => item part - 1) D) = Ok R /\
    let n := (Z.to_nat (fst (shape R)) * Z.to_nat K +
              Z.to_nat (snd (shape R)) * Z.to_nat K)%nat in
    GD random_sample D K MAXITER GAMMA LAMBDA g =
      (Ok (P, Q, mse), advance random_sample n g) /\
    forall g' : G,
      samples random_sample n g' = samples random_sample n g ->
      GD random_sample D K MAXITER GAMMA LAMBDA g' =
        (Ok (P, Q, mse), advance random_sample n g').
Proof.
  intros HD Hids HK.
  destruct (GD_run random_sample D K MAXITER GAMMA LAMBDA g HD Hids HK)
    as [M [N [_ [_ [_ Hrun]]]]].
  cbv zeta in Hrun.
  destruct Hrun as [Ecsr [_ [_ [PQ [mse [EGD [Eafter Emse]]]]]]].
  exists {| shape := (M, N); entries := sum_duplicates (coo_of D) |}, (fst PQ), (snd PQ), mse.
  split; [exact Ecsr|]. cbv zeta. simpl shape. simpl fst. simpl snd.
  split.
  - rewrite EGD. unfold generator_after. rewrite advance_add. reflexivity.
  - intros g' Es.
    destruct (GD_run random_sample D K MAXITER GAMMA LAMBDA g' HD Hids HK)
      as [M' [N' [_ [_ [_ Hrun']]]]].
    cbv zeta in Hrun'.
    destruct Hrun' as [Ecsr' [_ [_ [PQ' [mse' [EGD' [Eafter' Emse']]]]]]].
    rewrite Ecsr in Ecsr'. injection Ecsr' as EM EN. subst M' N'.
    rewrite !samples_add in Es.
    assert (EP : samples random_sample (Z.to_nat M * Z.to_nat K) g' =
                 samples random_sample (Z.to_nat M * Z.to_nat K) g).
    { apply (f_equal (firstn (Z.to_nat M * Z.to_nat K))) in Es.
      rewrite !firstn_exact in Es by apply length_samples. exact Es. }
    assert (EQ : samples random_sample (Z.to_nat N * Z.to_nat K)
                         (advance random_sample (Z.to_nat M * Z.to_nat K) g') =
                 samples random_sample (Z.to_nat N * Z.to_nat K)
                         (advance random_sample (Z.to_nat M * Z.to_nat K) g)).
    { apply (f_equal (skipn (Z.to_nat M * Z.to_nat K))) in Es.
      rewrite !skipn_exact in Es by apply length_samples. exact Es. }
    unfold initial_P, initial_Q in Eafter', Emse'.
    rewrite EP, EQ in Eafter', Emse'.
    unfold initial_P, initial_Q in Eafter, Emse.
    rewrite Eafter in Eafter'. rewrite Emse in Emse'.
    injection Eafter' as <-. injection Emse' as <-.
    rewrite EGD'. unfold generator_after. rewrite advance_add. reflexivity.
Qed.

(** C9, as the code has it: a non-empty collection with ids from 1 on is
    never refused, whether or not a pair comes twice; the matrix stores one
    value per position, the ratings the collection holds for the pair added
    up in collection order; for a pair that comes twice that is the sum of
    its two ratings, not the later one. *)
Theorem csr_matrix_sums_duplicates (D : list (rating F)) :
  D <> [] ->
  Forall (fun x => 1 <= user x /\ 1 <= item x) D ->
  exists R : csr F,
    csr_matrix (map (fun part => stars part) D)
               (map (fun part => user part - 1) D)
               (map (fun part => item part - 1) D) = Ok R /\
    row_major (entries R) /\
    (forall u v, stored (entries R) (u - 1, v - 1) =
                 sum_run (map (fun y => stars y) (records_of D u v))) /\
    (forall u v r1 r2 rest,
        map (fun y => stars y) (records_of D u v) = r1 :: r2 :: rest ->
        csr_get R (u - 1) (v - 1) = fold_left fadd rest (fadd r1 r2)).
Proof.
  intros HD Hids.
  destruct (csr_matrix_of_ratings D HD Hids) as [M [N [Ecsr _]]].
  eexists. split; [exact Ecsr|]. simpl entries.
  assert (St : forall u v, stored (sum_duplicates (coo_of D)) (u - 1, v - 1) =
                           sum_run (map (fun y => stars y) (records_of D u v)))
    by (intros u v; rewrite sum_duplicates_stored, ratings_at_coo_of; reflexivity).
  split; [apply sum_duplicates_row_major|]. split; [exact St|].
  intros u v r1 r2 rest E. unfold csr_get. simpl entries.
  rewrite St, E. reflexivity.
Qed.

(** C10: when a training set with ids from 1 on holds exactly one record
    for a pair [(u, v)] and its rating is zero, the matrix does store that
    zero at [(u-1, v-1)], yet the position is not among those the epoch
    loop visits: no update is run for it, and nothing is raised. *)
Theorem zero_rating_skipped (D : list (rating F)) (x : rating F) :
  Forall (fun y => 1 <= user y /\ 1 <= item y) D ->
  records_of D (user x) (item x) = [x] ->
  fnonzero (stars x) = false ->
  exists R : csr F,
    csr_matrix (map (fun part => stars part) D)
               (map (fun part => user part - 1) D)
               (map (fun part => item part - 1) D) = Ok R /\
    stored (entries R) (user x - 1, item x - 1) = Some (stars x) /\
    ~ In (user x - 1, item x - 1) (visits R).
Proof.
  intros Hids Hone Hzero.
  assert (HD : D <> []) by (intros ->; discriminate Hone).
  destruct (csr_matrix_of_ratings D HD Hids) as [M [N [Ecsr _]]].
  eexists. split; [exact Ecsr|]. simpl entries.
  assert (St : stored (sum_duplicates (coo_of D)) (user x - 1, item x - 1) = Some (stars x))
    by (rewrite sum_duplicates_stored, ratings_at_coo_of, Hone; reflexivity).
  split; [exact St|].
  rewrite visits_spec by (simpl; apply sum_duplicates_row_major).
  simpl entries. rewrite St. intros [s [Es Hs]]. inversion Es; subst s.
  congruence.
Qed.

End TrainerClaims.

(** ** Loading the ratings *)

Section LoadingFacts.
Context {F : Type} `{Scalar F}.
Context (py_int : string -> result Z) (py_float : string -> result F).

Lemma prefix_append (x y : string) : prefix x (x ++ y) = true.
Proof.
  induction x as [|c x IH]; simpl; [destruct y; reflexivity|].
  destruct (Ascii.ascii_dec c c); [exact IH | congruence].
Qed.

Lemma split_fields_skip (sep x rest : string) :
  split_fields sep (String.length x) (x ++ rest) = split_fields sep 0 rest.
Proof.
  induction x as [|c x IH]; simpl; [reflexivity|]. exact IH.
Qed.

(** A field without the first character of the separator, followed by the
    separator, is split off as it is. *)
Lemma split_fields_field (c0 : Ascii.ascii) (sep' a rest : string) :
  occurs c0 a = false ->
  split_fields (String c0 sep') 0 (a ++ String c0 sep' ++ rest) =
  a :: split_fields (String c0 sep') 0 rest.
Proof.
  intros Ha. induction a as [|c a IH].
  - change ("" ++ String c0 sep' ++ rest)%string with (String c0 (sep' ++ rest)).
    change (split_fields (String c0 sep') 0 (String c0 (sep' ++ rest)))
      with (if prefix (String c0 sep') (String c0 (sep' ++ rest))
            then EmptyString :: split_fields (String c0 sep')
                                  (String.length (String c0 sep') - 1) (sep' ++ rest)
            else match split_fields (String c0 sep') 0 (sep' ++ rest) with
                 | f :: fs => String c0 f :: fs
                 | [] => [String c0 EmptyString]
                 end).
    pose proof (prefix_append (String c0 sep') rest) as Hp.
    cbn [append] in Hp. rewrite Hp.
    replace (String.length (String c0 sep') - 1)%nat with (String.length sep')
      by (simpl; lia).
    rewrite split_fields_skip. reflexivity.
  - simpl in Ha. destruct (Ascii.ascii_dec c0 c) as [E|N]; [discriminate|].
    simpl. destruct (Ascii.ascii_dec c0 c) as [E|_]; [contradiction|].
    simpl in IH. rewrite (IH Ha). reflexivity.
Qed.

Lemma split_fields_last (c0 : Ascii.ascii) (sep' a : string) :
  occurs c0 a = false -> split_fields (String c0 sep') 0 a = [a].
Proof.
  intros Ha. induction a as [|c a IH]; [reflexivity|].
  simpl in Ha. destruct (Ascii.ascii_dec c0 c) as [E|N]; [discriminate|].
  simpl. destruct (Ascii.ascii_dec c0 c) as [E|_]; [contradiction|].
  rewrite (IH Ha). reflexivity.
Qed.

(** X1: a line [u::m::r::rest] whose three first fields hold no colon is
    parsed from those three fields alone: the result is [int(u)], [int(m)]
    and [float(r)], or the first exception these raise in that order, and
    what follows the third separator (the timestamp, or anything else) has
    no part in it. *)
Theorem parseRating_first_three_fields (u m r rest : string) :
  occurs ":"%char u = false -> occurs ":"%char m = false -> occurs ":"%char r = false ->
  parseRating py_int py_float (u ++ "::" ++ m ++ "::" ++ r ++ "::" ++ rest)%string =
  (userID <- py_int u ;; movieID <- py_int m ;; x <- py_float r ;;
   Ok ((userID, movieID), x)).
Proof.
  intros Hu Hm Hr. unfold parseRating, str_split. cbn [bind].
  rewrite (split_fields_field ":"%char ":"%string u _ Hu).
  rewrite (split_fields_field ":"%char ":"%string m _ Hm).
  rewrite (split_fields_field ":"%char ":"%string r _ Hr).
  cbn [list_get nth_error bind].
  destruct (py_int u); cbn [bind]; [|reflexivity].
  destruct (py_int m); cbn [bind]; [|reflexivity].
  destruct (py_float r); reflexivity.
Qed.

(** X2: a line [u::m] with two fields only raises [IndexError], but not
    before both integers are converted: when [int(u)] or [int(m)] raises,
    that exception is the one the caller sees. *)
Theorem parseRating_two_fields (u m : string) :
  occurs ":"%char u = false -> occurs ":"%char m = false ->
  parseRating py_int py_float (u ++ "::" ++ m)%string =
  (userID <- py_int u ;; movieID <- py_int m ;;
   Raise (IndexError "list index out of range"%string)).
Proof.
  intros Hu Hm. unfold parseRating, str_split. cbn [bind].
  rewrite (split_fields_field ":"%char ":"%string u _ Hu).
  rewrite (split_fields_last ":"%char ":"%string m Hm).
  cbn [list_get nth_error bind].
  destruct (py_int u); cbn [bind]; [|reflexivity].
  destruct (py_int m); reflexivity.
Qed.

(** X11: the timestamp is not required: a line [u::m::r] with three
    fields is parsed like one that has a fourth. *)
Theorem parseRating_three_fields (u m r : string) :
  occurs ":"%char u = false -> occurs ":"%char m = false -> occurs ":"%char r = false ->
  parseRating py_int py_float (u ++ "::" ++ m ++ "::" ++ r)%string =
  (userID <- py_int u ;; movieID <- py_int m ;; x <- py_float r ;;
   Ok ((userID, movieID), x)).
Proof.
  intros Hu Hm Hr. unfold parseRating, str_split. cbn [bind].
  rewrite (split_fields_field ":"%char ":"%string u _ Hu).
  rewrite (split_fields_field ":"%char ":"%string m _ Hm).
  rewrite (split_fields_last ":"%char ":"%string r Hr).
  cbn [list_get nth_error bind].
  destruct (py_int u); cbn [bind]; [|reflexivity].
  destruct (py_int m); cbn [bind]; [|reflexivity].
  destruct (py_float r); reflexivity.
Qed.

End LoadingFacts.

(** ** The statistics cell *)

Section StatisticsFacts.
Context {F : Type} `{Scalar F}.

(** The ids from 1 to [m]. *)
Lemma in_ids_upto (m x : Z) :
  1 <= x <= m -> In x (map Z.of_nat (seq 1 (Z.to_nat m))).
Proof.
  intros Hx. apply in_map_iff. exists (Z.to_nat x). split; [lia|].
  apply in_seq. lia.
Qed.

Lemma distinct_ids_bounded (l : list Z) (m : Z) :
  0 <= m ->
  Forall (fun x => 1 <= x <= m) l ->
  Z.of_nat (length (nodup Z.eq_dec l)) <= m.
Proof.
  intros Hm Hl.
  assert (L : (length (nodup Z.eq_dec l) <=
               length (map Z.of_nat (seq 1 (Z.to_nat m))))%nat).
  { apply NoDup_incl_length; [apply NoDup_nodup|].
    intros x Hx. apply nodup_In in Hx. rewrite Forall_forall in Hl.
    apply in_ids_upto, Hl, Hx. }
  rewrite length_map, length_seq in L. lia.
Qed.

Lemma rdd_max_bounds (l : list Z) :
  l <> [] -> Forall (fun x => 1 <= x) l ->
  exists m, rdd_max l = Ok m /\ 1 <= m /\ In m l /\ Forall (fun x => 1 <= x <= m) l.
Proof.
  intros Hl Hpos. unfold rdd_max.
  destruct (np_max l) as [m|] eqn:E; [|destruct l; [congruence | discriminate]].
  apply np_max_spec in E. destruct E as [Hin Hall].
  rewrite Forall_forall in Hpos, Hall.
  exists m. split; [reflexivity|]. split; [apply Hpos, Hin|]. split; [exact Hin|].
  apply Forall_forall. intros x Hx. split; [apply Hpos, Hx | apply Hall, Hx].
Qed.

Lemma ids_split (D : list (rating F)) :
  Forall (fun x => 1 <= user x /\ 1 <= item x) D ->
  Forall (fun x => 1 <= x) (map (fun r => user r) D) /\
  Forall (fun x => 1 <= x) (map (fun r => item r) D).
Proof.
  intros Hids. split; apply Forall_forall; intros x Hx;
    apply in_map_iff in Hx; destruct Hx as [y [<- Hy]];
    rewrite Forall_forall in Hids; apply (Hids y Hy).
Qed.

(** X3: for ratings that are not empty and whose ids start at 1, the
    statistics cell computes [M] and [N] without raising, and the numbers of
    distinct users and of distinct films it prints lie between 1 and [M],
    respectively 1 and [N]. *)
Theorem distinct_counts_bounded (ratingsRDD : list (rating F)) :
  ratingsRDD <> [] ->
  Forall (fun x => 1 <= user x /\ 1 <= item x) ratingsRDD ->
  exists M N,
    dim_M ratingsRDD = Ok M /\ dim_N ratingsRDD = Ok N /\
    1 <= numUsers ratingsRDD <= M /\
    1 <= numMovies ratingsRDD <= N.
Proof.
  intros HD Hids. destruct (ids_split ratingsRDD Hids) as [Hu Hi].
  destruct (rdd_max_bounds (map (fun r => user r) ratingsRDD)) as [M [EM [HM [_ AM]]]];
    [destruct ratingsRDD; [congruence | discriminate] | exact Hu |].
  destruct (rdd_max_bounds (map (fun r => item r) ratingsRDD)) as [N [EN [HN [_ AN]]]];
    [destruct ratingsRDD; [congruence | discriminate] | exact Hi |].
  exists M, N. split; [exact EM|]. split; [exact EN|].
  unfold numUsers, numMovies, rdd_count, rdd_distinct.
  destruct ratingsRDD as [|x D]; [congruence|].
  split; split.
  - assert (I : In (user x) (nodup Z.eq_dec (map (fun r => user r) (x :: D))))
      by (apply nodup_In; left; reflexivity).
    destruct (nodup Z.eq_dec (map (fun r => user r) (x :: D))); [destruct I | simpl; lia].
  - apply distinct_ids_bounded; [lia | exact AM].
  - assert (I : In (item x) (nodup Z.eq_dec (map (fun r => item r) (x :: D))))
      by (apply nodup_In; left; reflexivity).
    destruct (nodup Z.eq_dec (map (fun r => item r) (x :: D))); [destruct I | simpl; lia].
  - apply distinct_ids_bounded; [lia | exact AN].
Qed.

(** X4: if moreover no (user, film) pair is rated twice, the number of
    ratings is at least 1 and at most [M * N]: the quotient
    [numRatings / (M * N)] the cell prints as the share of filled positions
    divides by a positive number and does not exceed 1. *)
Theorem ratings_fit_matrix (ratingsRDD : list (rating F)) :
  ratingsRDD <> [] ->
  Forall (fun x => 1 <= user x /\ 1 <= item x) ratingsRDD ->
  pairs_unique ratingsRDD ->
  exists M N,
    dim_M ratingsRDD = Ok M /\ dim_N ratingsRDD = Ok N /\
    1 <= M * N /\
    1 <= numRatings ratingsRDD <= M * N.
Proof.
  intros HD Hids Huniq. destruct (ids_split ratingsRDD Hids) as [Hu Hi].
  destruct (rdd_max_bounds (map (fun r => user r) ratingsRDD)) as [M [EM [HM [_ AM]]]];
    [destruct ratingsRDD; [congruence | discriminate] | exact Hu |].
  destruct (rdd_max_bounds (map (fun r => item r) ratingsRDD)) as [N [EN [HN [_ AN]]]];
    [destruct ratingsRDD; [congruence | discriminate] | exact Hi |].
  exists M, N. split; [exact EM|]. split; [exact EN|]. split; [nia|].
  unfold numRatings, rdd_count. split.
  - destruct ratingsRDD; [congruence | simpl; lia].
  - assert (L : (length (map (fun x => (user x, item x)) ratingsRDD) <=
                 length (list_prod (map Z.of_nat (seq 1 (Z.to_nat M)))
                                   (map Z.of_nat (seq 1 (Z.to_nat N)))))%nat).
    { apply NoDup_incl_length; [exact Huniq|].
      intros [u v] Huv. apply in_map_iff in Huv. destruct Huv as [x [E Hx]].
      inversion E; subst u v. apply in_prod_iff.
      rewrite Forall_forall in AM, AN. split; apply in_ids_upto.
      - apply AM. apply (in_map (fun r => user r)), Hx.
      - apply AN. apply (in_map (fun r => item r)), Hx. }
    rewrite length_prod, !length_map, !length_seq in L. nia.
Qed.

End StatisticsFacts.

(** ** The rating matrix and the positions visited *)

Section MatrixFacts.
Context {F : Type} `{Scalar F}.
Context {G : Type} (random_sample : G -> F * G).

Lemma fold_max_shift (l : list Z) (a : Z) :
  fold_left Z.max (map (fun x => x - 1) l) (a - 1) = fold_left Z.max l a - 1.
Proof.
  revert a. induction l as [|b l IH]; intros a; simpl; [reflexivity|].
  replace (Z.max (a - 1) (b - 1)) with (Z.max a b - 1) by lia. apply IH.
Qed.

Lemma np_max_shift {A : Type} (f : A -> Z) (l : list A) (m : Z) :
  np_max (map f l) = Some m -> np_max (map (fun x => f x - 1) l) = Some (m - 1).
Proof.
  destruct l as [|a l]; simpl; [discriminate|]. intros [= <-]. f_equal.
  rewrite <- fold_max_shift, map_map. reflexivity.
Qed.

Lemma csr_matrix_built (data : list F) (row col : list Z) (R : csr F) :
  csr_matrix data row col = Ok R ->
  exists mr mc, np_max row = Some mr /\ np_max col = Some mc /\
                shape R = (mr + 1, mc + 1) /\
                entries R = sum_duplicates (combine (combine row col) data).
Proof.
  unfold csr_matrix. intros E.
  destruct (np_max row) as [mr|]; [|discriminate].
  destruct (np_max col) as [mc|]; [|discriminate].
  repeat (match type of E with
          | (if ?c then _ else _) = _ => destruct c; [discriminate|]
          end).
  inversion E. exists mr, mc. auto.
Qed.

(** X5: the matrix [GD] builds from ratings that are not empty and whose
    ids start at 1 has exactly the dimensions the statistics cell computes
    from the same ratings, the largest user id by the largest film id; so
    [P] gets one row per user id up to the largest one present, and none
    beyond it. *)
Theorem GD_matrix_dimensions (D : list (rating F)) (K : Z) (g : G) :
  D <> [] ->
  Forall (fun x => 1 <= user x /\ 1 <= item x) D ->
  0 <= K ->
  exists (M N : Z) (R : csr F) (P : matrix F) (g1 : G),
    dim_M D = Ok M /\ dim_N D = Ok N /\
    csr_matrix (map (fun part => stars part) D)
               (map (fun part => user part - 1) D)
               (map (fun part => item part - 1) D) = Ok R /\
    shape R = (M, N) /\
    np_random_rand random_sample (fst (shape R)) K g = (Ok P, g1) /\
    Z.of_nat (length P) = M.
Proof.
  intros HD Hids HK.
  destruct (csr_matrix_of_ratings D HD Hids) as [M' [N' [Ecsr [HM' [HN' _]]]]].
  destruct (csr_matrix_built _ _ _ _ Ecsr) as [mr [mc [Er [Ec [Es _]]]]].
  simpl in Es. inversion Es; subst M' N'.
  unfold dim_M, dim_N, rdd_max.
  destruct (np_max (map (fun r => user r) D)) as [M|] eqn:EM;
    [|destruct D; [congruence | discriminate]].
  destruct (np_max (map (fun r => item r) D)) as [N|] eqn:EN;
    [|destruct D; [congruence | discriminate]].
  rewrite (np_max_shift (fun r => user r) D M EM) in Er.
  rewrite (np_max_shift (fun r => item r) D N EN) in Ec.
  inversion Er; inversion Ec; subst mr mc.
  destruct (np_random_rand_shape random_sample M K g) as [Erand [LP _]]; [lia | lia |].
  eexists M, N, _, _, _.
  split; [reflexivity|]. split; [reflexivity|]. split; [exact Ecsr|].
  simpl shape. simpl fst.
  replace (M - 1 + 1) with M by lia. replace (N - 1 + 1) with N by lia.
  split; [reflexivity|]. split; [exact Erand|].
  rewrite LP. lia.
Qed.

Lemma records_of_absent (D : list (rating F)) (u v : Z) :
  (forall x, In x D -> (user x, item x) <> (u, v)) -> records_of D u v = [].
Proof.
  unfold records_of. induction D as [|y D IH]; intros Habs; simpl; [reflexivity|].
  destruct ((user y =? u) && (item y =? v)) eqn:E.
  - apply andb_true_iff in E. destruct E as [Eu Ev].
    apply Z.eqb_eq in Eu. apply Z.eqb_eq in Ev.
    exfalso. apply (Habs y (or_introl eq_refl)). congruence.
  - apply IH. intros x Hx. apply Habs. right. exact Hx.
Qed.

Lemma records_of_unique (D : list (rating F)) (x : rating F) :
  pairs_unique D -> In x D -> records_of D (user x) (item x) = [x].
Proof.
  unfold pairs_unique. induction D as [|y D IH]; intros Hu Hx; [destruct Hx|].
  simpl in Hu. inversion Hu as [|? ? Hnotin Hu']; subst.
  unfold records_of. simpl. fold (records_of D (user x) (item x)).
  destruct Hx as [->|Hx].
  - rewrite !Z.eqb_refl. simpl. f_equal. apply records_of_absent.
    intros z Hz E. apply Hnotin. rewrite <- E.
    apply (in_map (fun x => (user x, item x))), Hz.
  - destruct ((user y =? user x) && (item y =? item x)) eqn:E.
    + apply andb_true_iff in E. destruct E as [Eu Ev].
      apply Z.eqb_eq in Eu. apply Z.eqb_eq in Ev.
      exfalso. apply Hnotin. rewrite Eu, Ev.
      apply (in_map (fun x => (user x, item x))), Hx.
    + apply IH; assumption.
Qed.

(** X6: when no pair is rated twice, the matrix gives every rating back:
    [R[u-1, v-1]] is the rating of the record of [(u, v)], and it is [0.0]
    for every pair [(u, v)] that has no record and lies inside the matrix,
    [1 <= u <= M] and [1 <= v <= N] for the shape [(M, N)] of [R]. *)
Theorem csr_matrix_lookup (D : list (rating F)) :
  D <> [] ->
  Forall (fun x => 1 <= user x /\ 1 <= item x) D ->
  pairs_unique D ->
  exists R : csr F,
    csr_matrix (map (fun part => stars part) D)
               (map (fun part => user part - 1) D)
               (map (fun part => item part - 1) D) = Ok R /\
    (forall x, In x D -> csr_get R (user x - 1) (item x - 1) = stars x) /\
    (forall u v, 1 <= u <= fst (shape R) -> 1 <= v <= snd (shape R) ->
                 (forall x, In x D -> (user x, item x) <> (u, v)) ->
                 csr_get R (u - 1) (v - 1) = fzero).
Proof.
  intros HD Hids Hu.
  destruct (csr_matrix_of_ratings D HD Hids) as [M [N [Ecsr _]]].
  eexists. split; [exact Ecsr|]. unfold csr_get. simpl entries. split.
  - intros x Hx.
    rewrite sum_duplicates_stored, ratings_at_coo_of, (records_of_unique D x Hu Hx).
    reflexivity.
  - intros u v _ _ Habs.
    rewrite sum_duplicates_stored, ratings_at_coo_of, (records_of_absent D u v Habs).
    reflexivity.
Qed.

Lemma length_coo_insert (ij : Z * Z) (v : F) (es : list (Z * Z * F)) :
  (length (coo_insert ij v es) <= S (length es))%nat.
Proof.
  induction es as [|[ij' v'] es IH]; simpl; [lia|].
  destruct (pos_compare ij ij'); simpl; lia.
Qed.

Lemma length_sum_duplicates (coo : list (Z * Z * F)) :
  (length (sum_duplicates coo) <= length coo)%nat.
Proof.
  unfold sum_duplicates.
  assert (G0 : forall acc,
             (length (fold_left (fun es e => coo_insert (fst e) (snd e) es) coo acc)
              <= length coo + length acc)%nat).
  { induction coo as [|e coo IH]; intros acc; simpl; [lia|].
    pose proof (IH (coo_insert (fst e) (snd e) acc)) as L.
    pose proof (length_coo_insert (fst e) (snd e) acc). lia. }
  pose proof (G0 []) as L. simpl in L. lia.
Qed.

(** X7: for the matrix built from a training set, the index arrays [I] and
    [J] of [R.nonzero()] have the same length, so [zip(I, J)] drops no
    index; [nbNonZero] is the number of positions an epoch visits, and it
    is at most the number of training records. *)
Theorem nonzero_index_arrays (D : list (rating F)) (R : csr F) :
  csr_matrix (map (fun part => stars part) D)
             (map (fun part => user part - 1) D)
             (map (fun part => item part - 1) D) = Ok R ->
  length (fst (nonzero R)) = length (snd (nonzero R)) /\
  nbNonZero R = Z.of_nat (length (visits R)) /\
  nbNonZero R <= numRatings D.
Proof.
  intros Ecsr.
  destruct (csr_matrix_built _ _ _ _ Ecsr) as [mr [mc [_ [_ [_ Ee]]]]].
  rewrite coo_of_combine in Ee.
  unfold nbNonZero, visits, nonzero, numRatings, rdd_count. simpl.
  rewrite length_combine, !length_map, Nat.min_id.
  split; [reflexivity|]. split; [reflexivity|].
  pose proof (filter_length_le (fun e => fnonzero (snd e)) (entries R)) as L1.
  pose proof (length_sum_duplicates (coo_of D)) as L2.
  assert (L3 : length (coo_of D) = length D) by (unfold coo_of; apply length_map).
  rewrite Ee in L1. rewrite Ee. lia.
Qed.

Lemma strictly_sorted_NoDup (l : list (Z * Z)) : StronglySorted pos_lt l -> NoDup l.
Proof.
  induction 1 as [|a l S IH Hall]; constructor; [|exact IH].
  intros Hin. rewrite Forall_forall in Hall.
  exact (pos_lt_neq a a (Hall a Hin) eq_refl).
Qed.

(** X8: when no pair is rated twice and no rating is zero, the positions
    an epoch visits are the positions of the training records, each once,
    rearranged in row-major order. *)
Theorem visits_every_record_once (D : list (rating F)) :
  D <> [] ->
  Forall (fun x => 1 <= user x /\ 1 <= item x) D ->
  pairs_unique D ->
  Forall (fun x => fnonzero (stars x) = true) D ->
  exists R : csr F,
    csr_matrix (map (fun part => stars part) D)
               (map (fun part => user part - 1) D)
               (map (fun part => item part - 1) D) = Ok R /\
    Permutation (visits R) (map (fun x => (user x - 1, item x - 1)) D) /\
    StronglySorted pos_lt (visits R).
Proof.
  intros HD Hids Hu Hnz.
  destruct (csr_matrix_of_ratings D HD Hids) as [M [N [Ecsr _]]].
  eexists. split; [exact Ecsr|].
  assert (S : StronglySorted pos_lt
                (visits {| shape := (M, N); entries := sum_duplicates (coo_of D) |})).
  { rewrite visits_nonzero_entries. simpl entries.
    apply (filter_row_major _ _ (sum_duplicates_row_major (coo_of D))). }
  split; [|exact S].
  apply NoDup_Permutation.
  - apply strictly_sorted_NoDup, S.
  - replace (map (fun x => (user x - 1, item x - 1)) D)
      with (map (fun p => (fst p - 1, snd p - 1)) (map (fun x => (user x, item x)) D))
      by (rewrite map_map; reflexivity).
    apply Injective_map_NoDup; [|exact Hu].
    intros [a b] [c d] E. simpl in E. inversion E. f_equal; lia.
  - intros ij. rewrite visits_spec by (simpl; apply sum_duplicates_row_major).
    simpl entries. split.
    + intros [v [Ev _]]. apply stored_In in Ev.
      apply (in_map fst) in Ev. simpl in Ev.
      rewrite sum_duplicates_positions in Ev.
      unfold coo_of in Ev. rewrite map_map in Ev. exact Ev.
    + intros Hin. apply in_map_iff in Hin. destruct Hin as [x [<- Hx]].
      exists (stars x). split.
      * rewrite sum_duplicates_stored, ratings_at_coo_of,
          (records_of_unique D x Hu Hx). reflexivity.
      * rewrite Forall_forall in Hnz. apply Hnz, Hx.
Qed.

(** X9: a training set with a record whose user id or film id is below 1
    is refused: [GD] raises a [ValueError] from the construction of the
    matrix, and the generator is as it was. *)
Theorem GD_refuses_ids_below_one (D : list (rating F)) (x : rating F)
    (K MAXITER : Z) (GAMMA LAMBDA : F) (g : G) :
  In x D -> user x < 1 \/ item x < 1 ->
  exists msg, GD random_sample D K MAXITER GAMMA LAMBDA g = (Raise (ValueError msg), g).
Proof.
  intros Hx Hlow. unfold GD, rand_bind, rand_lift.
  destruct (csr_matrix _ _ _) as [R|e] eqn:E.
  - exfalso. unfold csr_matrix in E.
    destruct (np_max _) as [mr|]; [|discriminate].
    destruct (np_max _) as [mc|]; [|discriminate].
    destruct ((mr + 1 <? 0) || (mc + 1 <? 0)); [discriminate|].
    destruct (existsb (fun i => i <? 0) (map (fun part => user part - 1) D)) eqn:Er;
      [discriminate|].
    destruct (existsb (fun j => j <? 0) (map (fun part => item part - 1) D)) eqn:Ec;
      [discriminate|].
    destruct Hlow as [Hl|Hl].
    + assert (T : existsb (fun i => i <? 0) (map (fun part => user part - 1) D) = true).
      { apply existsb_exists. exists (user x - 1). split.
        - apply (in_map (fun part => user part - 1)), Hx.
        - apply Z.ltb_lt. lia. }
      congruence.
    + assert (T : existsb (fun j => j <? 0) (map (fun part => item part - 1) D) = true).
      { apply existsb_exists. exists (item x - 1). split.
        - apply (in_map (fun part => item part - 1)), Hx.
        - apply Z.ltb_lt. lia. }
      congruence.
  - apply csr_matrix_raises in E. destruct E as [msg ->]. exists msg. reflexivity.
Qed.

(** X10: with [MAXITER <= 0] the loop over [range(MAXITER)] has no turn:
    [GD] returns the factors exactly as [np.random.rand] drew them, and a
    history with the single record of epoch 0. *)
Theorem GD_without_epochs (D : list (rating F)) (K MAXITER : Z) (GAMMA LAMBDA : F) (g : G) :
  D <> [] ->
  Forall (fun x => 1 <= user x /\ 1 <= item x) D ->
  0 <= K -> MAXITER <= 0 ->
  exists (R : csr F) (P0 Q0 : matrix F) (g1 g2 : G) (m0 : F),
    csr_matrix (map (fun part => stars part) D)
               (map (fun part => user part - 1) D)
               (map (fun part => item part - 1) D) = Ok R /\
    np_random_rand random_sample (fst (shape R)) K g = (Ok P0, g1) /\
    np_random_rand random_sample (snd (shape R)) K g1 = (Ok Q0, g2) /\
    GD random_sample D K MAXITER GAMMA LAMBDA g = (Ok (P0, Q0, [(0, m0)]), g2).
Proof.
  intros HD Hids HK HT.
  destruct (GD_run random_sample D K MAXITER GAMMA LAMBDA g HD Hids HK)
    as [M [N [HM [HN [Hfit Hrun]]]]].
  cbv zeta in Hrun.
  destruct Hrun as [Ecsr [HP0 [HQ0 [PQ [mse [EGD [Eafter Emse]]]]]]].
  replace (Z.to_nat MAXITER) with 0%nat in Eafter, Emse by lia.
  simpl in Eafter. inversion Eafter; subst PQ.
  simpl in Emse. unfold loss_at in Emse. simpl in Emse.
  destruct (computeMSE D _ _) as [m0|e]; simpl in Emse; [|discriminate].
  inversion Emse; subst mse.
  eexists. exists (initial_P random_sample M K g), (initial_Q random_sample M N K g).
  exists (advance random_sample (Z.to_nat M * Z.to_nat K) g).
  exists (generator_after random_sample M N K g), m0.
  split; [exact Ecsr|]. simpl shape. simpl fst. simpl snd.
  split; [apply np_random_rand_shape; lia|].
  split; [apply np_random_rand_shape; lia|].
  exact EGD.
Qed.

Lemma row_major_determined (l1 l2 : list (Z * Z * F)) :
  row_major l1 -> row_major l2 ->
  (forall k, stored l1 k = stored l2 k) -> l1 = l2.
Proof.
  unfold row_major. revert l2.
  induction l1 as [|[k1 v1] t1 IH]; intros [|[k2 v2] t2] S1 S2 E.
  - reflexivity.
  - specialize (E k2). rewrite stored_cons in E. simpl in E.
    rewrite pos_eqb_refl in E. discriminate E.
  - specialize (E k1). rewrite stored_cons in E. simpl in E.
    rewrite pos_eqb_refl in E. discriminate E.
  - simpl in S1, S2.
    inversion S1 as [|? ? S1' A1]; inversion S2 as [|? ? S2' A2]; subst.
    assert (Ek : k1 = k2).
    { destruct (pos_compare k1 k2) eqn:C.
      - apply pos_compare_eq, C.
      - exfalso. pose proof (E k1) as E1.
        rewrite stored_cons in E1. simpl in E1. rewrite pos_eqb_refl in E1.
        rewrite (stored_above k1 ((k2, v2) :: t2)) in E1; [discriminate|].
        simpl. constructor; [exact C|].
        rewrite Forall_forall in *. intros k Hk.
        apply (pos_lt_trans k1 k2 k C), A2, Hk.
      - exfalso. apply pos_compare_gt in C. pose proof (E k2) as E2.
        rewrite (stored_cons (k2, v2)) in E2. simpl in E2. rewrite pos_eqb_refl in E2.
        rewrite (stored_above k2 ((k1, v1) :: t1)) in E2; [discriminate|].
        simpl. constructor; [exact C|].
        rewrite Forall_forall in *. intros k Hk.
        apply (pos_lt_trans k2 k1 k C), A1, Hk. }
    subst k2.
    assert (Ev : v1 = v2).
    { pose proof (E k1) as E1. rewrite !stored_cons in E1. simpl in E1.
      rewrite pos_eqb_refl in E1. congruence. }
    subst v2. f_equal. apply IH; try assumption.
    intros k. destruct (pos_eqb k1 k) eqn:Ek.
    + apply pos_eqb_eq in Ek. subst k.
      rewrite (stored_above k1 t1 A1), (stored_above k1 t2 A2). reflexivity.
    + pose proof (E k) as E1. rewrite !stored_cons in E1. simpl in E1.
      rewrite Ek in E1. exact E1.
Qed.

Lemma np_max_permutation (l l' : list Z) :
  Permutation l l' -> np_max l = np_max l'.
Proof.
  intros Hp.
  destruct (np_max l) as [m|] eqn:E; destruct (np_max l') as [m'|] eqn:E'.
  - apply np_max_spec in E. apply np_max_spec in E'.
    destruct E as [I A], E' as [I' A'].
    rewrite Forall_forall in A, A'.
    pose proof (A' m (Permutation_in m Hp I)).
    pose proof (A m' (Permutation_in m' (Permutation_sym Hp) I')).
    f_equal. lia.
  - destruct l' as [|b l']; [|discriminate].
    apply Permutation_sym, Permutation_nil in Hp. subst. discriminate.
  - destruct l as [|b l]; [|discriminate].
    apply Permutation_nil in Hp. subst. discriminate.
  - reflexivity.
Qed.

Lemma existsb_permutation {A : Type} (f : A -> bool) (l l' : list A) :
  Permutation l l' -> existsb f l = existsb f l'.
Proof.
  intros Hp. destruct (existsb f l) eqn:E; destruct (existsb f l') eqn:E';
    try reflexivity; exfalso.
  - apply existsb_exists in E. destruct E as [x [I T]].
    assert (T' : existsb f l' = true)
      by (apply existsb_exists; exists x; split; [apply (Permutation_in x Hp I) | exact T]).
    congruence.
  - apply existsb_exists in E'. destruct E' as [x [I T]].
    assert (T' : existsb f l = true)
      by (apply existsb_exists; exists x; split;
          [apply (Permutation_in x (Permutation_sym Hp) I) | exact T]).
    congruence.
Qed.

Lemma ratings_at_unique (coo : list (Z * Z * F)) (k : Z * Z) :
  NoDup (map fst coo) -> (length (ratings_at coo k) <= 1)%nat.
Proof.
  unfold ratings_at. induction coo as [|e coo IH]; simpl; intros Hn; [lia|].
  inversion Hn as [|? ? Hnotin Hn']; subst.
  destruct (pos_eqb (fst e) k) eqn:E; [|apply IH, Hn'].
  apply pos_eqb_eq in E. simpl.
  assert (Z0 : filter (fun e0 => pos_eqb (fst e0) k) coo = []).
  { destruct (filter (fun e0 => pos_eqb (fst e0) k) coo) as [|e' t] eqn:Ef; [reflexivity|].
    exfalso. assert (I : In e' (filter (fun e0 => pos_eqb (fst e0) k) coo))
      by (rewrite Ef; left; reflexivity).
    apply filter_In in I. destruct I as [I Ek]. apply pos_eqb_eq in Ek.
    apply Hnotin. rewrite E, <- Ek. apply in_map, I. }
  rewrite Z0. simpl. lia.
Qed.

(** X12: when no pair is rated twice, the matrix [GD] builds does not
    depend on the order in which the RDD hands over its records: two
    collections that hold the same records give the same call result of
    [csr_matrix], hence the same [R.shape], the same stored values and the
    same visited positions in the same order. *)
Theorem csr_matrix_order_independent (D D' : list (rating F)) :
  Permutation D D' ->
  pairs_unique D ->
  csr_matrix (map (fun part => stars part) D)
             (map (fun part => user part - 1) D)
             (map (fun part => item part - 1) D) =
  csr_matrix (map (fun part => stars part) D')
             (map (fun part => user part - 1) D')
             (map (fun part => item part - 1) D').
Proof.
  intros Hp Hu. unfold csr_matrix.
  rewrite (np_max_permutation _ _ (Permutation_map (fun part => user part - 1) Hp)).
  rewrite (np_max_permutation _ _ (Permutation_map (fun part => item part - 1) Hp)).
  rewrite (existsb_permutation _ _ _ (Permutation_map (fun part => user part - 1) Hp)).
  rewrite (existsb_permutation _ _ _ (Permutation_map (fun part => item part - 1) Hp)).
  rewrite !coo_of_combine.
  assert (Ee : sum_duplicates (coo_of D) = sum_duplicates (coo_of D')).
  { apply row_major_determined; try apply sum_duplicates_row_major.
    intros k. rewrite !sum_duplicates_stored.
    assert (Hk : Permutation (ratings_at (coo_of D) k) (ratings_at (coo_of D') k)).
    { unfold ratings_at, coo_of. apply Permutation_map.
      assert (Pf : forall (f : Z * Z * F -> bool) (l l' : list (Z * Z * F)),
                 Permutation l l' -> Permutation (filter f l) (filter f l')).
      { intros f l l' P. induction P as [|a l l' P IH|a b l|l l' l'' P1 IH1 P2 IH2]; simpl.
        - constructor.
        - destruct (f a); [constructor|]; exact IH.
        - destruct (f a), (f b); try apply Permutation_refl.
          apply perm_swap.
        - eapply Permutation_trans; eassumption. }
      apply Pf, Permutation_map, Hp. }
    assert (Hl : (length (ratings_at (coo_of D) k) <= 1)%nat).
    { apply ratings_at_unique. unfold coo_of. rewrite map_map. simpl.
      unfold pairs_unique in Hu.
      replace (map (fun x => (user x - 1, item x - 1)) D)
        with (map (fun p => (fst p - 1, snd p - 1)) (map (fun x => (user x, item x)) D))
        by (rewrite map_map; reflexivity).
      apply Injective_map_NoDup; [|exact Hu].
      intros [a b] [c d] E. simpl in E. inversion E. f_equal; lia. }
    destruct (ratings_at (coo_of D) k) as [|r [|r' t]].
    - apply Permutation_nil in Hk. rewrite Hk. reflexivity.
    - apply Permutation_length_1_inv in Hk. rewrite Hk. reflexivity.
    - simpl in Hl. lia. }
  rewrite Ee. reflexivity.
Qed.

End MatrixFacts.

(** * Runs in exact arithmetic

    The theorems above at concrete inputs, with rational numbers and the
    small generator of [Exact], and the inputs at which the code departs
    from the behaviour described for it. *)

Module Examples.
Import Exact.

Definition q (z : Z) : Qc := Q2Qc (inject_Z z).

(** One user, one film, five stars. *)
Definition one_rating : list (rating Qc) := [((1, 1), q 5)].

(** The pair (1, 1) rated twice, 2 then 3. *)
Definition rated_twice : list (rating Qc) := [((1, 1), q 2); ((1, 1), q 3)].

(** A rating of zero next to a rating of four. *)
Definition with_zero : list (rating Qc) := [((1, 1), q 0); ((1, 2), q 4)].

(** A training set whose only rating is zero. *)
Definition only_zero : list (rating Qc) := [((1, 1), q 0)].

Definition tenth : Qc := Q2Qc (1 # 10).


Lemma ids_from_one_rated_twice :
  Forall (fun x : rating Qc => 1 <= user x /\ 1 <= item x) rated_twice.
Proof.
  unfold rated_twice, with_zero, one_rating.
  repeat (apply Forall_cons; [unfold user, item; simpl; lia|]). apply Forall_nil.
Qed.

Lemma ids_from_one_with_zero :
  Forall (fun x : rating Qc => 1 <= user x /\ 1 <= item x) with_zero.
Proof.
  unfold rated_twice, with_zero, one_rating.
  repeat (apply Forall_cons; [unfold user, item; simpl; lia|]). apply Forall_nil.
Qed.

Lemma ids_from_one_one_rating :
  Forall (fun x : rating Qc => 1 <= user x /\ 1 <= item x) one_rating.
Proof.
  unfold rated_twice, with_zero, one_rating.
  repeat (apply Forall_cons; [unfold user, item; simpl; lia|]). apply Forall_nil.
Qed.

(** A session with one user of factors (1, 2), one film of factors (3, 4)
    and the rating of five stars. *)
Definition session : memory Qc :=
  {| mem_P := [[q 1; q 2]]; mem_Q := [[q 3; q 4]]; mem_D := one_rating |}.

(** 1 * 3 + 2 * 4 = 11, and the session after the call is the session
    before it. *)
Lemma predict_dot_product_witness :
  length [q 1; q 2] = 2%nat /\ length [q 3; q 4] = 2%nat /\
  predict [q 1; q 2] [q 3; q 4] = Ok (q 11) /\
  predictedRating_call ((1, 1), q 5) session = (Ok (q 11), session).
Proof.
  split; [reflexivity|]. split; [reflexivity|].
  destruct (predict_dot_product 2 [q 1; q 2] [q 3; q 4] ((1, 1), q 5) session
              eq_refl eq_refl) as [E [_ [_ Hcall]]].
  split; [exact E|]. apply Hcall; reflexivity.
Defined.


(** One step at position (0, 0) with [gamma = lambda = 1], [R[0,0] = 5],
    [p = (1, 2)] and [q = (3, 4)]: [e = 5 - 11 = -6], the new [p] is
    [(1 + (-36 - 2), 2 + (-48 - 4))] and the new [q] is
    [(3 + (-12 - 6), 4 + (-24 - 8))], computed from the old [p]. *)
Lemma sgd_step_simultaneous_witness :
  inside 1 1 (0, 0) /\
  exists P' Q',
    sgd_step {| shape := (1, 1); entries := [((0, 0), q 5)] |} (q 1) (q 1) (0, 0)
             ([[q 1; q 2]], [[q 3; q 4]]) = Ok (P', Q') /\
    nth_error P' 0 = Some [q (-37); q (-50)] /\
    nth_error Q' 0 = Some [q (-15); q (-28)].
Proof.
  assert (I : inside 1 1 (0, 0)) by (unfold inside; simpl; lia).
  assert (HP : has_shape 1 2 [[q 1; q 2]]) by (split; [reflexivity | repeat constructor]).
  assert (HQ : has_shape 1 2 [[q 3; q 4]]) by (split; [reflexivity | repeat constructor]).
  split; [exact I|].
  destruct (sgd_step_simultaneous
              {| shape := (1, 1); entries := [((0, 0), q 5)] |} (q 1) (q 1)
              1 1 2 [] [] 0 0 ([[q 1; q 2]], [[q 3; q 4]]) ([[q 1; q 2]], [[q 3; q 4]])
              eq_refl HP HQ I)
    as [P' [Q' [p' [q' [E [_ [EP [EQ [Lp [Lq [Hp [Hq _]]]]]]]]]]]].
  exists P', Q'. split; [exact E|].
  destruct p' as [|a [|b [|c p']]]; try discriminate Lp.
  destruct q' as [|a' [|b' [|c' q']]]; try discriminate Lq.
  change (Z.to_nat 0) with 0%nat in EP, EQ. rewrite EP, EQ.
  pose proof (Hp 0%nat (Nat.lt_0_succ 1)) as Ea.
  pose proof (Hp 1%nat (Nat.lt_succ_diag_r 1)) as Eb.
  pose proof (Hq 0%nat (Nat.lt_0_succ 1)) as Ea'.
  pose proof (Hq 1%nat (Nat.lt_succ_diag_r 1)) as Eb'.
  cbn [nth] in Ea, Eb, Ea', Eb'.
  rewrite Ea, Eb, Ea', Eb'.
  split; reflexivity.
Defined.

Lemma GD_loss_history_witness :
  one_rating <> [] /\ 0 <= 1 /\ 0 <= 2 /\
  exists P Q mse g',
    GD lcg one_rating 1 2 tenth (q 0) 7 = (Ok (P, Q, mse), g') /\
    Z.of_nat (length mse) = 2 + 1 /\
    map fst mse = [0; 1; 2].
Proof.
  split; [discriminate|]. split; [lia|]. split; [lia|].
  destruct (GD_loss_history lcg one_rating 1 2 tenth (q 0) 7)
    as [R [P0 [Q0 [P [Q [g1 [g2 [m0 [mse [_ [_ [_ [_ [E [L [I _]]]]]]]]]]]]]]]].
  - discriminate.
  - exact ids_from_one_one_rating.
  - lia.
  - lia.
  - exists P, Q, mse, g2. split; [exact E|]. split; [exact L | exact I].
Defined.

Lemma GD_epochs_witness :
  with_zero <> [] /\ 0 <= 1 /\
  exists R P Q mse g',
    csr_matrix (map (fun part => stars part) with_zero)
               (map (fun part => user part - 1) with_zero)
               (map (fun part => item part - 1) with_zero) = Ok R /\
    StronglySorted pos_lt (visits R) /\
    GD lcg with_zero 1 3 tenth (q 0) 7 = (Ok (P, Q, mse), g').
Proof.
  split; [discriminate|]. split; [lia|].
  destruct (GD_epochs lcg with_zero 1 3 tenth (q 0) 7)
    as [R [P0 [Q0 [g1 [g2 [PQ [mse [Ecsr [_ [_ [S [_ [E _]]]]]]]]]]]]].
  - discriminate.
  - exact ids_from_one_with_zero.
  - lia.
  - exists R, (fst PQ), (snd PQ), mse, g2.
    split; [exact Ecsr|]. split; [exact S | exact E].
Defined.

Lemma GD_negative_rank_witness :
  -1 < 0 /\
  exists msg, GD lcg one_rating (-1) 2 tenth (q 0) 7 = (Raise (ValueError msg), 7).
Proof.
  split; [lia|]. apply (GD_negative_rank lcg one_rating (-1) 2 tenth (q 0) 7). lia.
Defined.

(** The matrix of [one_rating] is 1 by 1, so a run of rank 1 reads two
    samples.  The generator states 3 and 19 are different and give the same
    two samples; both runs return the same result and leave the generator
    in state 13. *)
Lemma GD_reads_generator_witness :
  one_rating <> [] /\ 0 <= 1 /\
  samples lcg 2 19 = samples lcg 2 3 /\
  exists P Q mse,
    GD lcg one_rating 1 2 tenth (q 0) 3 = (Ok (P, Q, mse), 13) /\
    GD lcg one_rating 1 2 tenth (q 0) 19 = (Ok (P, Q, mse), 13).
Proof.
  split; [discriminate|]. split; [lia|]. split; [reflexivity|].
  destruct (GD_reads_generator lcg one_rating 1 2 tenth (q 0) 3)
    as [R [P [Q [mse [Ecsr [E3 E19]]]]]].
  - discriminate.
  - exact ids_from_one_one_rating.
  - lia.
  - assert (S : shape R = (1, 1)).
    { pose proof Ecsr as E. vm_compute in E. injection E as <-. reflexivity. }
    rewrite S in E3, E19. simpl in E3, E19.
    exists P, Q, mse. split; [exact E3|]. apply (E19 19). reflexivity.
Defined.

Lemma csr_matrix_sums_duplicates_witness :
  rated_twice <> [] /\
  exists R,
    csr_matrix (map (fun part => stars part) rated_twice)
               (map (fun part => user part - 1) rated_twice)
               (map (fun part => item part - 1) rated_twice) = Ok R /\
    csr_get R (1 - 1) (1 - 1) = fadd (q 2) (q 3).
Proof.
  split; [discriminate|].
  destruct (csr_matrix_sums_duplicates rated_twice) as [R [E [_ [_ Hsum]]]].
  - discriminate.
  - exact ids_from_one_rated_twice.
  - exists R. split; [exact E|].
    apply (Hsum 1 1 (q 2) (q 3) []). reflexivity.
Defined.

Lemma zero_rating_skipped_witness :
  records_of with_zero 1 1 = [((1, 1), q 0)] /\
  fnonzero (q 0) = false /\
  exists R,
    csr_matrix (map (fun part => stars part) with_zero)
               (map (fun part => user part - 1) with_zero)
               (map (fun part => item part - 1) with_zero) = Ok R /\
    stored (entries R) (0, 0) = Some (q 0) /\
    ~ In (0, 0) (visits R).
Proof.
  split; [reflexivity|]. split; [reflexivity|].
  apply (zero_rating_skipped with_zero ((1, 1), q 0)).
  - exact ids_from_one_with_zero.
  - reflexivity.
  - reflexivity.
Defined.

(** C4 as stated fails: the training set [only_zero] has one observed
    entry, user 1 and film 1, and an epoch visits no position at all. *)
Lemma observed_zero_never_visited :
  In ((1, 1), q 0) only_zero /\
  exists R,
    csr_matrix (map (fun part => stars part) only_zero)
               (map (fun part => user part - 1) only_zero)
               (map (fun part => item part - 1) only_zero) = Ok R /\
    visits R = [] /\
    ~ In (0, 0) (visits R).
Proof.
  split; [left; reflexivity|].
  eexists. split; [reflexivity|]. split; [reflexivity|]. intros [].
Qed.

(** C5 as stated fails: on an empty training set [GD] raises a
    [ValueError], which is not [EmptyDatasetError]. *)
Lemma GD_empty_raises_ValueError :
  fst (GD lcg [] 1 2 tenth (q 0) 7) =
    Raise (ValueError "cannot infer dimensions from zero sized index arrays"%string) /\
  fst (GD lcg [] 1 2 tenth (q 0) 7) <> Raise EmptyDatasetError.
Proof.
  split; [reflexivity|]. intros E. discriminate E.
Qed.

(** C6 as stated fails: with [K = 0] [GD] raises nothing; it returns
    factors with empty rows and a full loss history. *)
Lemma GD_accepts_rank_zero :
  exists mse,
    GD lcg one_rating 0 2 tenth (q 0) 7 = (Ok ([[]], [[]], mse), 7) /\
    map fst mse = [0; 1; 2].
Proof.
  eexists. split; [vm_compute; reflexivity|]. reflexivity.
Qed.

Definition sixteenths (n : Z) : Qc := Q2Qc (n # 16).

(** C8 as stated fails: [GD] takes no seed, and two runs with the same
    training set and parameters, the second started from the generator
    state the first has left, return different factors. *)
Lemma GD_successive_runs_differ :
  exists mse mse',
    GD lcg one_rating 1 0 tenth (q 0) 7 =
      (Ok ([[sixteenths 7]], [[sixteenths 6]], mse), 1) /\
    GD lcg one_rating 1 0 tenth (q 0) 1 =
      (Ok ([[sixteenths 1]], [[sixteenths 8]], mse'), 11) /\
    fst (GD lcg one_rating 1 0 tenth (q 0) 7) <>
    fst (GD lcg one_rating 1 0 tenth (q 0) (snd (GD lcg one_rating 1 0 tenth (q 0) 7))).
Proof.
  eexists. eexists. split; [vm_compute; reflexivity|]. split; [vm_compute; reflexivity|].
  intros E.
  apply (f_equal (fun r : result (matrix Qc * matrix Qc * list (Z * Qc)) =>
                    match r with
                    | Ok (P, _, _) => this (nth 0 (nth 0 P []) 0%Qc)
                    | Raise _ => 0%Q
                    end)) in E.
  vm_compute in E. discriminate E.
Qed.

(** C9 as stated fails: the collection [rated_twice] is not refused, and
    the value the matrix keeps for the pair is 5, the sum, not 3, the
    rating written last. *)
Lemma duplicates_neither_refused_nor_last :
  exists R,
    csr_matrix (map (fun part => stars part) rated_twice)
               (map (fun part => user part - 1) rated_twice)
               (map (fun part => item part - 1) rated_twice) = Ok R /\
    csr_get R 0 0 = q 5 /\
    csr_get R 0 0 <> q 3.
Proof.
  eexists. split; [reflexivity|]. split; [reflexivity|].
  intros E. apply (f_equal this) in E. vm_compute in E. discriminate E.
Qed.

End Examples.

(** * A mean in binary64 *)

Module FloatExamples.
Import Binary64.
Import PrimFloat.





End FloatExamples.

(** * Runs of the loading cell and of the matrix construction *)

Module MoreExamples.
Import Exact.
Import Examples.

(** A reader of unsigned decimal numerals, standing for [int] and, with
    the value taken as a rational, for [float]. *)
Definition digit (c : ascii) : option Z :=
  let n := Z.of_nat (nat_of_ascii c) in
  if (48 <=? n) && (n <=? 57) then Some (n - 48) else None.

Fixpoint read_digits (s : string) (acc : Z) : result Z :=
  match s with
  | EmptyString => Ok acc
  | String c s' =>
      match digit c with
      | Some d => read_digits s' (10 * acc + d)
      | None => Raise (ValueError "invalid literal for int() with base 10"%string)
      end
  end.

Definition read_int (s : string) : result Z :=
  match s with
  | EmptyString => Raise (ValueError "invalid literal for int() with base 10"%string)
  | String _ _ => read_digits s 0
  end.

Definition read_float (s : string) : result Qc := n <- read_int s ;; Ok (q n).

(** Two ratings, the later record first in row-major order. *)
Definition two_ratings : list (rating Qc) := [((2, 1), q 3); ((1, 2), q 4)].

Definition two_ratings_swapped : list (rating Qc) := [((1, 2), q 4); ((2, 1), q 3)].

Lemma ids_from_one_two_ratings :
  Forall (fun x : rating Qc => 1 <= user x /\ 1 <= item x) two_ratings.
Proof.
  unfold two_ratings.
  repeat (apply Forall_cons; [unfold user, item; simpl; lia|]). apply Forall_nil.
Qed.

Lemma pairs_unique_two_ratings : pairs_unique two_ratings.
Proof.
  unfold pairs_unique, two_ratings. simpl.
  constructor; [|constructor; [|constructor]].
  - intros [E|[]]. discriminate E.
  - intros [].
Qed.

Lemma pairs_unique_with_zero : pairs_unique with_zero.
Proof.
  unfold pairs_unique, with_zero. simpl.
  constructor; [|constructor; [|constructor]].
  - intros [E|[]]. discriminate E.
  - intros [].
Qed.

Lemma parseRating_first_three_fields_witness :
  occurs ":"%char "1" = false /\ occurs ":"%char "1193" = false /\
  occurs ":"%char "5" = false /\
  parseRating read_int read_float "1::1193::5::978300760" = Ok ((1, 1193), q 5).
Proof.
  split; [reflexivity|]. split; [reflexivity|]. split; [reflexivity|].
  exact (parseRating_first_three_fields read_int read_float "1" "1193" "5" "978300760"
           eq_refl eq_refl eq_refl).
Defined.

Lemma parseRating_two_fields_witness :
  occurs ":"%char "1" = false /\ occurs ":"%char "1193" = false /\
  parseRating read_int read_float "1::1193" =
  Raise (IndexError "list index out of range"%string).
Proof.
  split; [reflexivity|]. split; [reflexivity|].
  exact (parseRating_two_fields read_int read_float "1" "1193" eq_refl eq_refl).
Defined.

Lemma parseRating_three_fields_witness :
  occurs ":"%char "1" = false /\ occurs ":"%char "1193" = false /\
  occurs ":"%char "5" = false /\
  parseRating read_int read_float "1::1193::5" = Ok ((1, 1193), q 5).
Proof.
  split; [reflexivity|]. split; [reflexivity|]. split; [reflexivity|].
  exact (parseRating_three_fields read_int read_float "1" "1193" "5"
           eq_refl eq_refl eq_refl).
Defined.

Lemma distinct_counts_bounded_witness :
  with_zero <> [] /\
  exists M N,
    dim_M with_zero = Ok M /\ dim_N with_zero = Ok N /\
    1 <= numUsers with_zero <= M /\ 1 <= numMovies with_zero <= N.
Proof.
  split; [discriminate|].
  apply (distinct_counts_bounded with_zero); [discriminate | exact ids_from_one_with_zero].
Defined.

Lemma ratings_fit_matrix_witness :
  with_zero <> [] /\ pairs_unique with_zero /\
  exists M N,
    dim_M with_zero = Ok M /\ dim_N with_zero = Ok N /\
    1 <= M * N /\ 1 <= numRatings with_zero <= M * N.
Proof.
  split; [discriminate|]. split; [exact pairs_unique_with_zero|].
  apply (ratings_fit_matrix with_zero);
    [discriminate | exact ids_from_one_with_zero | exact pairs_unique_with_zero].
Defined.

Lemma GD_matrix_dimensions_witness :
  two_ratings <> [] /\ 0 <= 1 /\
  exists M N R,
    dim_M two_ratings = Ok M /\ dim_N two_ratings = Ok N /\
    csr_matrix (map (fun part => stars part) two_ratings)
               (map (fun part => user part - 1) two_ratings)
               (map (fun part => item part - 1) two_ratings) = Ok R /\
    shape R = (M, N).
Proof.
  split; [discriminate|]. split; [lia|].
  destruct (GD_matrix_dimensions lcg two_ratings 1 7)
    as [M [N [R [P [g1 [EM [EN [Ecsr [Es _]]]]]]]]].
  - discriminate.
  - exact ids_from_one_two_ratings.
  - lia.
  - exists M, N, R. split; [exact EM|]. split; [exact EN|]. split; [exact Ecsr | exact Es].
Defined.

Lemma csr_matrix_lookup_witness :
  two_ratings <> [] /\ pairs_unique two_ratings /\
  exists R,
    csr_matrix (map (fun part => stars part) two_ratings)
               (map (fun part => user part - 1) two_ratings)
               (map (fun part => item part - 1) two_ratings) = Ok R /\
    shape R = (2, 2) /\
    csr_get R (2 - 1) (1 - 1) = q 3 /\
    csr_get R (1 - 1) (1 - 1) = q 0.
Proof.
  split; [discriminate|]. split; [exact pairs_unique_two_ratings|].
  destruct (csr_matrix_lookup two_ratings) as [R [Ecsr [Hget Hzero]]].
  - discriminate.
  - exact ids_from_one_two_ratings.
  - exact pairs_unique_two_ratings.
  - assert (S : shape R = (2, 2)).
    { pose proof Ecsr as E. vm_compute in E. injection E as <-. reflexivity. }
    exists R. split; [exact Ecsr|]. split; [exact S|]. split.
    + apply (Hget ((2, 1), q 3)). left. reflexivity.
    + apply (Hzero 1 1).
      * rewrite S. simpl. lia.
      * rewrite S. simpl. lia.
      * intros x [<-|[<-|[]]]; discriminate.
Defined.

Lemma nonzero_index_arrays_witness :
  exists R,
    csr_matrix (map (fun part => stars part) with_zero)
               (map (fun part => user part - 1) with_zero)
               (map (fun part => item part - 1) with_zero) = Ok R /\
    length (fst (nonzero R)) = length (snd (nonzero R)) /\
    nbNonZero R = Z.of_nat (length (visits R)) /\
    nbNonZero R <= numRatings with_zero.
Proof.
  eexists. split; [reflexivity|].
  apply (nonzero_index_arrays with_zero). reflexivity.
Defined.

Lemma visits_every_record_once_witness :
  two_ratings <> [] /\ pairs_unique two_ratings /\
  Forall (fun x : rating Qc => fnonzero (stars x) = true) two_ratings /\
  exists R,
    csr_matrix (map (fun part => stars part) two_ratings)
               (map (fun part => user part - 1) two_ratings)
               (map (fun part => item part - 1) two_ratings) = Ok R /\
    Permutation (visits R) [(1, 0); (0, 1)] /\
    StronglySorted pos_lt (visits R).
Proof.
  assert (Hnz : Forall (fun x : rating Qc => fnonzero (stars x) = true) two_ratings)
    by (unfold two_ratings; repeat (apply Forall_cons; [reflexivity|]); apply Forall_nil).
  split; [discriminate|]. split; [exact pairs_unique_two_ratings|]. split; [exact Hnz|].
  apply (visits_every_record_once two_ratings).
  - discriminate.
  - exact ids_from_one_two_ratings.
  - exact pairs_unique_two_ratings.
  - exact Hnz.
Defined.

Lemma GD_refuses_ids_below_one_witness :
  In ((0, 1), q 5) [((0, 1), q 5)] /\ 0 < 1 /\
  exists msg,
    GD lcg [((0, 1), q 5)] 1 2 tenth (q 0) 7 = (Raise (ValueError msg), 7).
Proof.
  split; [left; reflexivity|]. split; [lia|].
  apply (GD_refuses_ids_below_one lcg [((0, 1), q 5)] ((0, 1), q 5) 1 2 tenth (q 0) 7).
  - left. reflexivity.
  - left. unfold user. simpl. lia.
Defined.

Lemma GD_without_epochs_witness :
  one_rating <> [] /\ 0 <= 1 /\ 0 <= 0 /\
  exists P0 Q0 m0 g2,
    GD lcg one_rating 1 0 tenth (q 0) 7 = (Ok (P0, Q0, [(0, m0)]), g2).
Proof.
  split; [discriminate|]. split; [lia|]. split; [lia|].
  destruct (GD_without_epochs lcg one_rating 1 0 tenth (q 0) 7)
    as [R [P0 [Q0 [g1 [g2 [m0 [_ [_ [_ E]]]]]]]]].
  - discriminate.
  - exact ids_from_one_one_rating.
  - lia.
  - lia.
  - exists P0, Q0, m0, g2. exact E.
Defined.

Lemma csr_matrix_order_independent_witness :
  Permutation two_ratings two_ratings_swapped /\ pairs_unique two_ratings /\
  csr_matrix (map (fun part => stars part) two_ratings)
             (map (fun part => user part - 1) two_ratings)
             (map (fun part => item part - 1) two_ratings) =
  csr_matrix (map (fun part => stars part) two_ratings_swapped)
             (map (fun part => user part - 1) two_ratings_swapped)
             (map (fun part => item part - 1) two_ratings_swapped).
Proof.
  assert (Hp : Permutation two_ratings two_ratings_swapped) by apply perm_swap.
  split; [exact Hp|]. split; [exact pairs_unique_two_ratings|].
  apply (csr_matrix_order_independent two_ratings two_ratings_swapped Hp
           pairs_unique_two_ratings).
Defined.

End MoreExamples.
